(** * Media-playback scheduler of [qt/aqt/sound.py]

    A shallow embedding of the playback scheduler ([AVPlayer]), of the
    process-backed players ([SimpleProcessPlayer] and its subclasses) and of
    [MpvManager], with the properties their specification states.

    Python integers are unbounded, so ranks, exit codes and clock readings
    are in [Z]; Python lists are Rocq lists; objects that are mutated in
    place and shared (class attributes) live in an explicit heap. *)

From Stdlib Require Import ZArith Lia.
From stdpp Require Import base option list strings gmap.
From stdpp Require Import pretty.

Local Open Scope Z_scope.

(** ** Tags *)

(** Modelled from the spec: the module [anki.sound], which declares [AVTag]
    and [SoundOrVideoTag], is not among the sources.  A tag is an immutable
    tagged union of playable-media variants: a sound-or-video file reference
    carrying a path, or another media kind such as text to be spoken. *)
Inductive AVTag : Type :=
  | SoundOrVideoTag (filename : string)
  | TTSTag (field_text : string).

(** [isinstance(tag, SoundOrVideoTag)] *)
Definition is_SoundOrVideoTag (tag : AVTag) : bool :=
  match tag with
  | SoundOrVideoTag _ => true
  | TTSTag _ => false
  end.

(** ** The player protocol *)

(** A [Player] object as the scheduler sees it: the scheduler only ever
    calls [rank_for_tag] itself; [play], [stop] and the other methods are
    effects on the outside world, recorded as events below.  [player_id]
    stands for the identity of the Python object. *)
Record Player : Type := mkPlayer {
  player_id : nat;
  rank_for_tag : AVTag -> option Z
}.

(** [SoundOrVideoPlayer.rank_for_tag] *)
Definition SoundOrVideoPlayer_rank_for_tag (default_rank : Z) (tag : AVTag)
  : option Z :=
  if is_SoundOrVideoTag tag then Some default_rank else None.

(** ** The scheduler: [AVPlayer] *)

Module AVPlayer.

(** *** Player selection *)

(** The loop of [_best_player_for_tag] that collects [(rank, p)] for every
    registered player whose rank is not [None], in registry order. *)
Fixpoint ranked_players (players : list Player) (tag : AVTag)
  : list (Z * Player) :=
  match players with
  | [] => []
  | p :: rest =>
      match rank_for_tag p tag with
      | Some rank => (rank, p) :: ranked_players rest tag
      | None => ranked_players rest tag
      end
  end.

(** [ranked.sort(key=itemgetter(0))]: Python's sort is stable and ascending.
    It is modelled by a stable insertion sort: an element is inserted in
    front of the first element whose key is not smaller, and the elements
    of the list are inserted from the right, so that elements with equal
    keys keep their order. *)
Fixpoint insert_by_rank (x : Z * Player) (l : list (Z * Player))
  : list (Z * Player) :=
  match l with
  | [] => [x]
  | y :: l' =>
      if x.1 <=? y.1 then x :: y :: l' else y :: insert_by_rank x l'
  end.

Fixpoint sort_by_rank (l : list (Z * Player)) : list (Z * Player) :=
  match l with
  | [] => []
  | x :: l' => insert_by_rank x (sort_by_rank l')
  end.

(** [AVPlayer._best_player_for_tag]: [ranked[-1][1]] when [ranked] is not
    empty, [None] otherwise. *)
Definition _best_player_for_tag (players : list Player) (tag : AVTag)
  : option Player :=
  match last (sort_by_rank (ranked_players players tag)) with
  | Some entry => Some entry.2
  | None => None
  end.

(** The rightmost maximum of a list of ranked entries, computed without
    sorting: an entry beats the best of the entries after it only when its
    rank is strictly greater. *)
Fixpoint latest_max (l : list (Z * Player)) : option (Z * Player) :=
  match l with
  | [] => None
  | x :: l' =>
      match latest_max l' with
      | None => Some x
      | Some y => if y.1 <? x.1 then Some x else Some y
      end
  end.

(** Ascending order of the keys. *)
Fixpoint ascending (l : list (Z * Player)) : Prop :=
  match l with
  | [] => True
  | x :: l' => (forall y, y ∈ l' -> x.1 <= y.1) /\ ascending l'
  end.

(** The entries of rank [k], in list order. *)
Definition of_rank (k : Z) (l : list (Z * Player)) : list (Z * Player) :=
  filter (fun e => e.1 = k) l.

(** What the selection returns, stated on the registry itself. *)
Definition latest_highest (players : list Player) (tag : AVTag)
    (p : Player) : Prop :=
  exists (before after : list Player) (r : Z),
    players = before ++ p :: after /\
    rank_for_tag p tag = Some r /\
    (forall q rq, q ∈ before -> rank_for_tag q tag = Some rq -> rq <= r) /\
    (forall q rq, q ∈ after -> rank_for_tag q tag = Some rq -> rq < r).


(** *** Scheduler state and effects *)

(** What the scheduler does to the outside world, in the order it does it:
    calls of methods of player objects, the two GUI hooks and the
    diagnostic written by [print]. *)
Inductive Event : Type :=
  | EvPlay (p : Player) (tag : AVTag)
      (* p.play(tag, self._on_play_finished) *)
  | EvStop (p : Player)                    (* p.stop() *)
  | EvTogglePause (p : Player)             (* p.toggle_pause() *)
  | EvSeekRelative (p : Player) (secs : Z) (* p.seek_relative(secs) *)
  | EvShutdown (p : Player)                (* p.shutdown() *)
  | EvWillPlay (tag : AVTag)   (* gui_hooks.av_player_will_play(tag) *)
  | EvDidPlay                  (* gui_hooks.av_player_did_play() *)
  | EvNoPlayersFound (tag : AVTag). (* print("no players found for", tag) *)

(** The attributes of the scheduler object.  [players] and
    [interrupt_current_audio] are class attributes of the single scheduler
    instance [av_player]; [_enqueued] and [current_player] are set by
    [__init__].  [events] is the trace of effects performed so far. *)
Record t : Type := mk {
  players : list Player;
  interrupt_current_audio : bool;
  _enqueued : list AVTag;
  current_player : option Player;
  events : list Event
}.

(** [AVPlayer.__init__], for a registry and an interrupt policy. *)
Definition init (registry : list Player) (interrupt : bool) : t :=
  mk registry interrupt [] None [].

Definition set_enqueued (q : list AVTag) (s : t) : t :=
  mk (players s) (interrupt_current_audio s) q (current_player s) (events s).

Definition set_current_player (c : option Player) (s : t) : t :=
  mk (players s) (interrupt_current_audio s) (_enqueued s) c (events s).

Definition emit (e : Event) (s : t) : t :=
  mk (players s) (interrupt_current_audio s) (_enqueued s)
     (current_player s) (events s ++ [e]).

(** *** Methods *)

Definition _stop_if_playing (s : t) : t :=
  let s1 := match current_player s with
            | Some p => emit (EvStop p) s
            | None => s
            end in
  set_current_player None s1.

Definition _pop_next (s : t) : option AVTag * t :=
  match _enqueued s with
  | [] => (None, s)
  | tag :: rest => (Some tag, set_enqueued rest s)
  end.

Definition _play (tag : AVTag) (s : t) : t :=
  match _best_player_for_tag (players s) tag with
  | Some best_player =>
      let s1 := set_current_player (Some best_player) s in
      let s2 := emit (EvWillPlay tag) s1 in
      emit (EvPlay best_player tag) s2
  | None => emit (EvNoPlayersFound tag) s
  end.

Definition _play_next_if_idle (s : t) : t :=
  match current_player s with
  | Some _ => s
  | None =>
      match _pop_next s with
      | (Some next, s1) => _play next s1
      | (None, s1) => s1
      end
  end.

(** The [on_done] callback handed to the player that is started. *)
Definition _on_play_finished (s : t) : t :=
  let s1 := set_current_player None s in
  let s2 := emit EvDidPlay s1 in
  _play_next_if_idle s2.

Definition play_tags (tags : list AVTag) (s : t) : t :=
  let s1 := set_enqueued tags s in
  let s2 := if interrupt_current_audio s1 then _stop_if_playing s1 else s1 in
  _play_next_if_idle s2.

Definition extend_and_play (tags : list AVTag) (s : t) : t :=
  let s1 := set_enqueued (_enqueued s ++ tags) s in
  _play_next_if_idle s1.

Definition stop_and_clear_queue (s : t) : t :=
  _stop_if_playing (set_enqueued [] s).

Definition play_file (filename : string) (s : t) : t :=
  play_tags [SoundOrVideoTag filename] s.

Definition insert_file (filename : string) (s : t) : t :=
  let s1 := set_enqueued (SoundOrVideoTag filename :: _enqueued s) s in
  _play_next_if_idle s1.

Definition toggle_pause (s : t) : t :=
  match current_player s with
  | Some p => emit (EvTogglePause p) s
  | None => s
  end.

Definition seek_relative (secs : Z) (s : t) : t :=
  match current_player s with
  | Some p => emit (EvSeekRelative p secs) s
  | None => s
  end.

Definition shutdown (s : t) : t :=
  foldl (fun acc p => emit (EvShutdown p) acc) (stop_and_clear_queue s)
        (players s).

(** *** Runs of the scheduler *)

(** The operations that reach the scheduler on the primary context: the
    public entry points and the completion callback. *)
Inductive Op : Type :=
  | OpPlayTags (tags : list AVTag)
  | OpExtendAndPlay (tags : list AVTag)
  | OpInsertFile (filename : string)
  | OpPlayFinished
  | OpStopAndClearQueue.

Definition step (s : t) (o : Op) : t :=
  match o with
  | OpPlayTags tags => play_tags tags s
  | OpExtendAndPlay tags => extend_and_play tags s
  | OpInsertFile filename => insert_file filename s
  | OpPlayFinished => _on_play_finished s
  | OpStopAndClearQueue => stop_and_clear_queue s
  end.

Definition run (ops : list Op) (s : t) : t := foldl step s ops.

(** The player that a trace leaves playing when it starts with [cur]
    playing: the one started by the last [EvPlay] that no later stop or
    completion has ended. *)
Definition playing_from (cur : option Player) (evs : list Event)
  : option Player :=
  foldl (fun cur e =>
           match e with
           | EvPlay p _ => Some p
           | EvStop _ => None
           | EvDidPlay => None
           | _ => cur
           end) cur evs.

Definition playing_after (evs : list Event) : option Player :=
  playing_from None evs.

(** No [play] is issued while an earlier play is still in progress: checks
    the trace from the left, carrying the player currently playing. *)
Fixpoint exclusive_from (cur : option Player) (evs : list Event) : bool :=
  match evs with
  | [] => true
  | EvPlay p _ :: rest =>
      match cur with
      | Some _ => false
      | None => exclusive_from (Some p) rest
      end
  | EvStop _ :: rest => exclusive_from None rest
  | EvDidPlay :: rest => exclusive_from None rest
  | _ :: rest => exclusive_from cur rest
  end.

Definition exclusive (evs : list Event) : bool := exclusive_from None evs.

(** The operations that only add to the queue. *)
Definition is_enqueue (o : Op) : bool :=
  match o with
  | OpExtendAndPlay _ | OpInsertFile _ => true
  | _ => false
  end.

(** The trace and the active-player slot agree, and no play was started
    over another. *)
Definition consistent (s : t) : Prop :=
  exclusive (events s) = true /\
  playing_after (events s) = current_player s.

(** The [play] calls of a trace, in order. *)
Definition plays (evs : list Event) : list (Player * AVTag) :=
  omap (fun e => match e with EvPlay p tag => Some (p, tag) | _ => None end)
       evs.

End AVPlayer.

(** ** Process-backed players: [SimpleProcessPlayer] *)

Module SimpleProcessPlayer.

(** The exceptions that cross the task boundary. *)
Inductive Exn : Type :=
  | PlayerInterrupted
  | AssertionError
  | OSError.

(** What [ret.result()] does in [_on_done]: return, or raise again what
    the background task raised. *)
Inductive FutureResult : Type :=
  | Returned
  | Raised (e : Exn).

(** The outcome of one [self._process.wait(0.1)]. *)
Inductive WaitOutcome : Type :=
  | Exited (returncode : Z)
  | TimeoutExpired.

(** The supervising loop runs on a background thread while [stop] may be
    called on the primary one.  A schedule lists, in the order they take
    effect, the outcomes of the successive [wait(0.1)] calls of the loop
    and the moments at which a concurrent [stop()] executes its first
    statement, [self._terminate_flag = True].  The loop does not read the
    flag during a wait, so a flag raised during a wait that times out, or
    between the timeout and the test of the flag, is listed before that
    wait. *)
Inductive Step : Type :=
  | Wait (o : WaitOutcome)
  | StopRequested.

(** Effects on the outside world. *)
Inductive Effect : Type :=
  | Launched (command : list string)
      (* subprocess.Popen(command, env=self.env) *)
  | PrintedReturnCode (returncode : Z)
      (* print(f"player got return code: {returncode}") *)
  | Terminated.                       (* self._process.terminate() *)

(** The attributes set by [__init__], with the trace of effects.  The
    process handle is represented by the command line it was started
    with. *)
Record t : Type := mk {
  _terminate_flag : bool;
  _process : option (list string);
  effects : list Effect
}.

(** [SimpleProcessPlayer.__init__] *)
Definition init : t := mk false None [].

Definition set_terminate_flag (b : bool) (s : t) : t :=
  mk b (_process s) (effects s).

Definition set_process (p : option (list string)) (s : t) : t :=
  mk (_terminate_flag s) p (effects s).

Definition effect (e : Effect) (s : t) : t :=
  mk (_terminate_flag s) (_process s) (effects s ++ [e]).

(** The [while True] loop of [_wait_for_termination].  [None]: the
    schedule ends while the loop is still running. *)
Fixpoint wait_loop (schedule : list Step) (s : t)
  : option (FutureResult * t) :=
  match schedule with
  | [] => None
  | StopRequested :: rest => wait_loop rest (set_terminate_flag true s)
  | Wait (Exited returncode) :: _ =>
      let s1 := if returncode =? 0 then s
                else effect (PrintedReturnCode returncode) s in
      Some (Returned, s1)
  | Wait TimeoutExpired :: rest =>
      if _terminate_flag s
      then Some (Raised PlayerInterrupted, effect Terminated s)
      else wait_loop rest s
  end.

(** The supervisor leaves the process alone throughout [schedule]: every
    wait in it times out, and none does so once the flag is raised.
    [flag] is the flag at the start. *)
Fixpoint left_running (flag : bool) (schedule : list Step) : bool :=
  match schedule with
  | [] => true
  | StopRequested :: rest => left_running true rest
  | Wait TimeoutExpired :: rest => negb flag && left_running flag rest
  | Wait (Exited _) :: _ => false
  end.

(** [_wait_for_termination]: the loop, then the [finally] clause on both
    ways out. *)
Definition _wait_for_termination (schedule : list Step) (s : t)
  : option (FutureResult * t) :=
  match wait_loop schedule s with
  | Some (res, s1) =>
      Some (res, set_terminate_flag false (set_process None s1))
  | None => None
  end.

(** [_play], for the value [args] that [self.args] has when it runs and
    for a process that [subprocess.Popen] starts; [_play_launching] below
    adds the case in which [Popen] raises. *)
Definition _play (args : list string) (tag : AVTag) (schedule : list Step)
    (s : t) : option (FutureResult * t) :=
  match tag with
  | SoundOrVideoTag filename =>
      let command := args ++ [filename] in
      let s1 := effect (Launched command) (set_process (Some command) s)
      in _wait_for_termination schedule s1
  | _ => Some (Raised AssertionError, s)
  end.

(** The result of a method that runs on the primary context: the state
    [S] of the primary context afterwards, or an exception that leaves
    the method. *)
Inductive Outcome (S : Type) : Type :=
  | Ok (main : S)
  | Propagated (e : Exn).
Arguments Ok {S} main.
Arguments Propagated {S} e.

(** [_on_done(ret, cb)]: the callback [cb] acts on the state of the
    primary context. *)
Definition _on_done {S : Type} (ret : FutureResult) (cb : S -> S) (main : S)
  : Outcome S :=
  match ret with
  | Raised PlayerInterrupted => Ok main
  | Raised e => Propagated e
  | Returned => Ok (cb main)
  end.

(** Modelled from the spec: [aqt.taskman.TaskManager] is not among the
    sources.  [run(task, on_done)] executes [task] on a background
    execution context and then delivers its result to [on_done] on the
    primary context.

    [play]: the background task is [_play(tag)], the delivery is
    [_on_done(res, on_done)].  [None]: the task has not finished when the
    schedule ends, and nothing has been delivered. *)
Definition play {S : Type} (args : list string) (tag : AVTag)
    (on_done : S -> S) (schedule : list Step) (s : t) (main : S)
  : option (t * Outcome S) :=
  match _play args tag schedule s with
  | Some (res, s1) => Some (s1, _on_done res on_done main)
  | None => None
  end.

(** How [subprocess.Popen] ends: with a process, or with an [OSError],
    for instance the [FileNotFoundError] of a missing executable. *)
Inductive Popen : Type :=
  | Started
  | PopenRaised.

(** [_play] with both ways [Popen] can end.  When it raises, the exception
    leaves [_play] from the assignment of [self._process]: the handle is
    not bound, [_wait_for_termination] and its [finally] clause are not
    reached, and nothing is cleared. *)
Definition _play_launching (launch : Popen) (args : list string)
    (tag : AVTag) (schedule : list Step) (s : t)
  : option (FutureResult * t) :=
  match tag, launch with
  | SoundOrVideoTag _, PopenRaised => Some (Raised OSError, s)
  | _, _ => _play args tag schedule s
  end.

(** [play] with both ways [Popen] can end. *)
Definition play_launching {S : Type} (launch : Popen) (args : list string)
    (tag : AVTag) (on_done : S -> S) (schedule : list Step) (s : t)
    (main : S) : option (t * Outcome S) :=
  match _play_launching launch args tag schedule s with
  | Some (res, s1) => Some (s1, _on_done res on_done main)
  | None => None
  end.

(** *** [stop] and its bounded wait *)

(** The clock as [stop] reads it.  Readings of [time.time()] are counted
    in ticks, [hz] to the second, as fine as the readings are; [t0] is the
    reading taken before the loop and [reading i] the one taken by the test
    of the loop that comes after [i] sleeps.  [progress] is a number of
    ticks by which the clock is known to advance during every sleep: a
    sleep is asked to last 0.1 s, how long it lasts and what the clock
    shows afterwards is up to the system. *)
Record Clock : Type := mkClock {
  hz : Z;
  t0 : Z;
  reading : nat -> Z;
  progress : Z
}.

(** The ceiling of 10 seconds, in ticks. *)
Definition CEILING (clock : Clock) : Z := 10 * hz clock.

(** The clock does not go back between the first reading and the first
    test, and every sleep advances it by [progress] ticks or more. *)
Definition advances (clock : Clock) : Prop :=
  0 < hz clock /\ 0 < progress clock /\
  t0 clock <= reading clock 0 /\
  forall i, reading clock i + progress clock <= reading clock (S i).

(** A clock in milliseconds on which every sleep lasts exactly 100 ms and
    nothing else takes time. *)
Definition exact_clock (start : Z) : Clock :=
  mkClock 1000 start (fun i => start + 100 * Z.of_nat i) 100.

(** The [while] loop of [stop], at its test number [i].  [others i] is
    what the other execution contexts do to the player during the sleep
    that follows that test.  The result is the player and the number of
    sleeps when the caller regains control.  [None]: out of fuel. *)
Fixpoint stop_loop (fuel : nat) (others : nat -> t -> t) (clock : Clock)
    (i : nat) (s : t) : option (t * nat) :=
  if _terminate_flag s && (reading clock i - t0 clock <? CEILING clock) then
    match fuel with
    | O => None
    | S fuel' => stop_loop fuel' others clock (S i) (others i s)
    end
  else Some (s, i).

(** The number of sleeps that a clock that advances allows at most. *)
Definition max_sleeps (clock : Clock) : nat :=
  S (Z.to_nat (CEILING clock / progress clock)).

(** [stop]: the flag is raised, then the loop runs. *)
Definition stop (others : nat -> t -> t) (clock : Clock) (s : t)
  : option (t * nat) :=
  stop_loop (max_sleeps clock) others clock 0 (set_terminate_flag true s).

(** The player after [n] sleeps of a [stop] in progress. *)
Fixpoint after_sleeps (others : nat -> t -> t) (i n : nat) (s : t) : t :=
  match n with
  | O => s
  | S n' => after_sleeps others (S i) n' (others i s)
  end.

End SimpleProcessPlayer.

(** ** The mpv-backed player: [MpvManager] *)

Module MpvManager.

(** [os.path.join(a, b)] on POSIX paths. *)
Definition os_path_join (a b : string) : string :=
  if String.prefix "/" b then b
  else if (String.length a =? 0)%nat then b
  else if String.eqb (String.substring (String.length a - 1) 1 a) "/"
       then a +:+ b
       else a +:+ "/" +:+ b.

(** The base class [MPV] ([aqt.mpv]) is not among the sources.  Of it the
    model keeps what [MpvManager] uses: [command] sends a command to the mpv
    process, recorded here in the order sent, and the base class calls the
    handler [on_idle] when the process reports that it has become idle. *)
Inductive Command : Type :=
  | Loadfile (path : string)   (* command("loadfile", path, "append-play") *)
  | Stop                       (* command("stop") *)
  | Seek (secs : Z).           (* command("seek", secs, "relative") *)

(** The attribute [_on_done] of the manager, a callback on the state [S]
    of the primary context, and the commands sent so far. *)
Record t (S : Type) : Type := mk {
  _on_done : option (S -> S);
  commands : list Command
}.
Arguments mk {S} _ _.
Arguments _on_done {S} _.
Arguments commands {S} _.

(** [MpvManager.__init__] *)
Definition init {S : Type} : t S := mk None [].

Definition command {S : Type} (c : Command) (s : t S) : t S :=
  mk (_on_done s) (commands s ++ [c]).

(** [play]: [None] stands for the [AssertionError] on another kind of
    tag. *)
Definition play {S : Type} (cwd : string) (tag : AVTag) (on_done : S -> S)
    (s : t S) : option (t S) :=
  match tag with
  | SoundOrVideoTag filename =>
      let s1 := mk (Some on_done) (commands s) in
      Some (command (Loadfile (os_path_join cwd filename)) s1)
  | _ => None
  end.

Definition stop {S : Type} (s : t S) : t S := command Stop s.

Definition seek_relative {S : Type} (secs : Z) (s : t S) : t S :=
  command (Seek secs) s.

(** [on_idle], the handler that the base class [MPV] calls when the mpv
    process reports that it has become idle; it acts on the primary
    context through the stored callback. *)
Definition on_idle {S : Type} (s : t S) (main : S) : S :=
  match _on_done s with
  | Some cb => cb main
  | None => main
  end.

End MpvManager.

(** ** Class attributes of the mplayer players *)

Module ClassAttrs.

(** The classes whose attribute [args] is read through an instance. *)
Inductive Class : Type :=
  | SimpleProcessPlayer
  | SimpleMplayerPlayer
  | SimpleMplayerSlaveModePlayer.

Global Instance Class_eq_dec : EqDecision Class.
Proof. solve_decision. Defined.

Definition Class_to_nat (c : Class) : nat :=
  match c with
  | SimpleProcessPlayer => 0
  | SimpleMplayerPlayer => 1
  | SimpleMplayerSlaveModePlayer => 2
  end%nat.

Definition Class_of_nat (n : nat) : option Class :=
  match n with
  | 0 => Some SimpleProcessPlayer
  | 1 => Some SimpleMplayerPlayer
  | 2 => Some SimpleMplayerSlaveModePlayer
  | _ => None
  end%nat.

Global Instance Class_countable : Countable Class.
Proof.
  apply (inj_countable Class_to_nat Class_of_nat). by intros [].
Defined.

(** The method resolution order of a class, itself first (the mixin
    [SoundOrVideoPlayer] and the bases above it define no [args]). *)
Definition mro (c : Class) : list Class :=
  match c with
  | SimpleProcessPlayer => [SimpleProcessPlayer]
  | SimpleMplayerPlayer => [SimpleMplayerPlayer; SimpleProcessPlayer]
  | SimpleMplayerSlaveModePlayer =>
      [SimpleMplayerSlaveModePlayer; SimpleMplayerPlayer;
       SimpleProcessPlayer]
  end.

(** List objects live in a heap and are referred to by address; a class
    that defines [args] in its body holds the address of its list. *)
Record Store : Type := mkStore {
  heap : gmap nat (list string);
  class_args : gmap Class nat
}.

(** An instance: its class, and the address bound to [args] in the
    instance's own dictionary, if any. *)
Record Instance : Type := mkInstance {
  cls : Class;
  own_args : option nat
}.

(** The address that [self.args] evaluates to: the instance's own binding,
    else that of the first class of the resolution order that defines
    [args]. *)
Definition args_ref (st : Store) (self : Instance) : option nat :=
  match own_args self with
  | Some a => Some a
  | None => head (omap (fun c => class_args st !! c) (mro (cls self)))
  end.

(** The value of [self.args]. *)
Definition get_args (st : Store) (self : Instance) : option (list string) :=
  match args_ref st self with
  | Some a => heap st !! a
  | None => None
  end.

(** The store once the module is loaded.  The body of
    [SimpleProcessPlayer] binds [args] to a new empty list; the body of
    [SimpleMplayerPlayer] binds it to the list returned by [_packagedCmd],
    whose first entry [exe] is the name or the resolved path of the
    executable, extended in place on Windows; the body of
    [SimpleMplayerSlaveModePlayer] binds no [args]. *)
Definition mplayer_args (exe : string) (isWin : bool) : list string :=
  [exe; "-really-quiet"; "-noautosub"]
    ++ (if isWin then ["-ao"; "win32"] else []).

Definition module_loaded (exe : string) (isWin : bool) : Store :=
  mkStore (<[1%nat := mplayer_args exe isWin]> (<[0%nat := []]> ∅))
          (<[SimpleMplayerPlayer := 1%nat]>
             (<[SimpleProcessPlayer := 0%nat]> ∅)).

(** [SimpleMplayerPlayer(taskman)]: the inherited [__init__] binds only
    [_taskman], [_terminate_flag] and [_process] in the instance. *)
Definition new_SimpleMplayerPlayer (st : Store) : Store * Instance :=
  (st, mkInstance SimpleMplayerPlayer None).

(** [SimpleMplayerSlaveModePlayer(taskman)]: after the inherited
    [__init__], [self.args.append("-slave")] extends in place the list
    that [self.args] evaluates to.  [None]: [AttributeError]. *)
Definition new_SimpleMplayerSlaveModePlayer (st : Store)
  : option (Store * Instance) :=
  let self := mkInstance SimpleMplayerSlaveModePlayer None in
  match args_ref st self with
  | Some a =>
      match heap st !! a with
      | Some l =>
          Some (mkStore (<[a := l ++ ["-slave"]]> (heap st)) (class_args st),
                self)
      | None => None
      end
  | None => None
  end.

(** The command line of the process that [_play] starts:
    [self.args + [tag.filename]]. *)
Definition popen_command (st : Store) (self : Instance) (filename : string)
  : option (list string) :=
  match get_args st self with
  | Some l => Some (l ++ [filename])
  | None => None
  end.

(** The class-level template of [SimpleMplayerPlayer]. *)
Definition SimpleMplayerPlayer_args (st : Store) : option (list string) :=
  match class_args st !! SimpleMplayerPlayer with
  | Some a => heap st !! a
  | None => None
  end.

End ClassAttrs.

(** ** Traces of the scheduler *)

Module Dispatch.
Import AVPlayer.

(** The [play] that a dispatch of [tag] issues: to the selected player, or
    none when no player is found. *)
Definition dispatch_of (registry : list Player) (tag : AVTag)
  : option (Player * AVTag) :=
  match _best_player_for_tag registry tag with
  | Some p => Some (p, tag)
  | None => None
  end.

(** Every [play] of the trace comes directly after the "will play"
    notification for its tag.  [prev] is the event before the trace. *)
Fixpoint announced_from (prev : option Event) (evs : list Event) : Prop :=
  match evs with
  | [] => True
  | EvPlay p tag :: rest =>
      prev = Some (EvWillPlay tag) /\ announced_from (Some (EvPlay p tag)) rest
  | e :: rest => announced_from (Some e) rest
  end.

Definition announced (evs : list Event) : Prop := announced_from None evs.

(** The last event of a trace that comes after [prev]. *)
Definition last_from (prev : option Event) (evs : list Event) : option Event :=
  match last evs with
  | Some e => Some e
  | None => prev
  end.

(** The events that [_stop_if_playing] issues. *)
Definition stop_events (s : t) : list Event :=
  match current_player s with
  | Some p => [EvStop p]
  | None => []
  end.

End Dispatch.

(** ** Registration of the players: [setup_audio] *)

Module Setup.

(** How the construction [MpvManager(base_folder)] ends: with a manager,
    with one of the two exceptions that [setup_audio] handles, or with any
    other exception. *)
Inductive MpvStart : Type :=
  | MpvStarted
  | FileNotFoundError
  | MPVProcessError
  | OtherException.

Definition mpv_started (start : MpvStart) : bool :=
  match start with
  | MpvStarted => true
  | _ => false
  end.

Definition mpv_unhandled (start : MpvStart) : bool :=
  match start with
  | OtherException => true
  | _ => false
  end.

(** The lines that [setup_audio] prints. *)
Inductive Printed : Type :=
  | MpvNotFound     (* print("mpv not found, reverting to mplayer") *)
  | MpvTooOld.      (* print("mpv too old, reverting to mplayer") *)

(** How [setup_audio] ends: it returns, or an exception leaves it. *)
Inductive Ending : Type :=
  | Done
  | Raised.

(** A player object whose [rank_for_tag] is the one inherited from
    [SoundOrVideoPlayer], with the class's [default_rank] of 0: the case of
    [MpvManager] and of [SimpleMplayerSlaveModePlayer]. *)
Definition sound_player (id : nat) : Player :=
  mkPlayer id (SoundOrVideoPlayer_rank_for_tag 0).

(** The manager and the mplayer player that [setup_audio] constructs. *)
Definition new_MpvManager : Player := sound_player 0.
Definition new_mplayer : Player := sound_player 1.

(** The text-to-speech player that the platform calls for, if any: the one
    of the Mac, else the one of Windows. *)
Definition platform_tts {A : Type} (isWin isMac : bool)
    (MacTTSPlayer WindowsTTSPlayer : A) : option A :=
  if isMac then Some MacTTSPlayer
  else if isWin then Some WindowsTTSPlayer
  else None.

(** [setup_audio].  The platform flags [isWin] and [isMac] come from
    [anki.utils] and the two text-to-speech players from [aqt.tts]; they
    are arguments here, as is the way the construction of the manager
    ends.  A text-to-speech player is [None] when its import or its
    construction raises.  [mpvManager] is the module's global and
    [players] the registry [av_player.players] before the call; the result
    holds both as the call leaves them, what was printed, and how the call
    ends. *)
Definition setup_audio (isWin isMac : bool) (start : MpvStart)
    (MacTTSPlayer WindowsTTSPlayer : option Player)
    (mpvManager : option Player) (players : list Player)
  : option Player * list Player * list Printed * Ending :=
  let mpv :=
    if negb isWin then
      match start with
      | MpvStarted => Some (Some new_MpvManager, [])
      | FileNotFoundError => Some (mpvManager, [MpvNotFound])
      | MPVProcessError => Some (mpvManager, [MpvTooOld])
      | OtherException => None
      end
    else Some (mpvManager, []) in
  match mpv with
  | None => (mpvManager, players, [], Raised)
  | Some (mpvManager1, printed) =>
      let players1 :=
        match mpvManager1 with
        | Some manager => players ++ [manager]
        | None => players ++ [new_mplayer]
        end in
      match platform_tts isWin isMac MacTTSPlayer WindowsTTSPlayer with
      | None => (mpvManager1, players1, printed, Done)
      | Some (Some tts) => (mpvManager1, players1 ++ [tts], printed, Done)
      | Some None => (mpvManager1, players1, printed, Raised)
      end
  end.

End Setup.

(** ** [stop] while a supervising loop is running *)

Module Supervision.
Import SimpleProcessPlayer.

(** What the background context does to the player during the sleeps of a
    caller of [stop], when a supervising loop is running: the loop comes
    back from the wait in progress, with outcome [o], during the sleep of
    index [k], and goes through the rest of [_wait_for_termination]; during
    the other sleeps it does not touch the player. *)
Definition supervisor_during_stop (k : nat) (o : WaitOutcome) (i : nat) (s : t)
  : t :=
  if Nat.eqb i k then
    match _wait_for_termination [Wait o] s with
    | Some (_, s') => s'
    | None => s
    end
  else s.

(** What the loop adds to the effects in that round. *)
Definition round_effects (o : WaitOutcome) : list Effect :=
  match o with
  | Exited returncode =>
      if returncode =? 0 then [] else [PrintedReturnCode returncode]
  | TimeoutExpired => [Terminated]
  end.

End Supervision.

(** ** Sequences of calls on [MpvManager] *)

Module MpvRuns.
Import MpvManager.

(** The calls that reach the manager: [play], [stop], [seek_relative] and
    the idle report of the mpv process.  The state of the primary context
    is carried along, since [on_idle] acts on it. *)
Inductive Op (S : Type) : Type :=
  | OpPlay (tag : AVTag) (on_done : S -> S)
  | OpStop
  | OpSeek (secs : Z)
  | OpIdle.
Arguments OpPlay {S} tag on_done.
Arguments OpStop {S}.
Arguments OpSeek {S} secs.
Arguments OpIdle {S}.

(** One call.  A [play] that fails its assertion leaves everything as it
    was. *)
Definition step {S : Type} (cwd : string) (st : t S * S) (o : Op S)
  : t S * S :=
  let '(m, main) := st in
  match o with
  | OpPlay tag on_done =>
      match play cwd tag on_done m with
      | Some m' => (m', main)
      | None => (m, main)
      end
  | OpStop => (stop m, main)
  | OpSeek secs => (seek_relative secs m, main)
  | OpIdle => (m, on_idle m main)
  end.

Definition run {S : Type} (cwd : string) (ops : list (Op S)) (st : t S * S)
  : t S * S :=
  foldl (step cwd) st ops.

(** The call is a [play] of a sound-or-video tag. *)
Definition is_play {S : Type} (o : Op S) : bool :=
  match o with
  | OpPlay (SoundOrVideoTag _) _ => true
  | _ => false
  end.

(** The number of idle reports among the calls. *)
Fixpoint idle_reports {S : Type} (ops : list (Op S)) : nat :=
  match ops with
  | [] => 0
  | OpIdle :: rest => Datatypes.S (idle_reports rest)
  | _ :: rest => idle_reports rest
  end.

End MpvRuns.

(** ** The command channel of [SimpleMplayerSlaveModePlayer] *)

Module SlaveMode.

(** The line terminator [b"\n"]. *)
Definition newline : string := String (Ascii.ascii_of_nat 10) EmptyString.

(** The outcome of a command: the bytes that the standard input of the
    process has received, all flushed, or the [AttributeError] raised by
    [self._process.stdin] when [self._process] is [None]. *)
Inductive Result : Type :=
  | Sent (stdin : string)
  | AttributeError.

(** [command(text)].  [process] is [self._process]: [None], or a process
    whose standard input is open and has received [stdin] so far.  The
    texts sent are ASCII, which [encode("utf8")] leaves as they are. *)
Definition command (text : string) (process : option string) : Result :=
  match process with
  | Some stdin => Sent (stdin +:+ text +:+ newline)
  | None => AttributeError
  end.

(** [seek_relative(secs)], with the decimal notation of [secs] that an
    f-string gives for an [int]. *)
Definition seek_relative (secs : Z) (process : option string) : Result :=
  command ("seek " +:+ pretty secs +:+ " 0") process.

Definition toggle_pause (process : option string) : Result :=
  command "pause" process.

(** The calls that the scheduler forwards to the player. *)
Inductive Op : Type :=
  | OpSeek (secs : Z)
  | OpTogglePause.

Definition step (o : Op) (process : option string) : Result :=
  match o with
  | OpSeek secs => seek_relative secs process
  | OpTogglePause => toggle_pause process
  end.

(** Calls in sequence on a process whose standard input has received
    [stdin]; an exception ends the sequence. *)
Fixpoint run (ops : list Op) (stdin : string) : Result :=
  match ops with
  | [] => Sent stdin
  | o :: rest =>
      match step o (Some stdin) with
      | Sent stdin' => run rest stdin'
      | AttributeError => AttributeError
      end
  end.

(** The line that a call writes. *)
Definition line (o : Op) : string :=
  match o with
  | OpSeek secs => "seek " +:+ pretty secs +:+ " 0" +:+ newline
  | OpTogglePause => "pause" +:+ newline
  end.

(** The lines of a sequence of calls, one after the other. *)
Definition lines (ops : list Op) : string :=
  foldr (fun o acc => line o +:+ acc) "" ops.

End SlaveMode.

(** ** The argument template of [SimpleMpvPlayer] *)

Module MpvPlayerArgs.

(** The template that the class body of [SimpleMpvPlayer] binds to [args]:
    the list returned by [_packagedCmd], whose first entry [exe] is the name
    or the resolved path of the executable. *)
Definition mpv_args (exe : string) : list string :=
  [exe; "--no-terminal"; "--force-window=no"; "--ontop";
   "--audio-display=no"; "--keep-open=no"; "--input-media-keys=no";
   "--no-config"].

(** The address of that list; the class is never bound to another. *)
Definition class_args_ref : nat := 0.

(** The heap of list objects once the module is loaded. *)
Definition module_loaded (exe : string) : gmap nat (list string) :=
  {[ class_args_ref := mpv_args exe ]}.

(** An instance: the address bound to [args] in its own dictionary, if
    any. *)
Record Instance : Type := mkInstance { own_args : option nat }.

(** The address that [self.args] evaluates to. *)
Definition args_ref (self : Instance) : nat :=
  match own_args self with
  | Some a => a
  | None => class_args_ref
  end.

(** The argument that [__init__] adds. *)
Definition include_arg (base_folder : string) : string :=
  "--include=" +:+ MpvManager.os_path_join base_folder "mpv.conf".

(** [SimpleMpvPlayer(taskman, base_folder)].  After the inherited
    [__init__] the instance binds no [args].  [self.args += [x]] reads
    [self.args], here the list of the class, extends that list in place
    ([list.__iadd__] returns the same object) and binds the result to
    [args] in the instance.  [None]: no list at the address. *)
Definition new_SimpleMpvPlayer (base_folder : string)
    (heap : gmap nat (list string))
  : option (gmap nat (list string) * Instance) :=
  let a := args_ref (mkInstance None) in
  match heap !! a with
  | Some l =>
      Some (<[a := l ++ [include_arg base_folder]]> heap, mkInstance (Some a))
  | None => None
  end.

(** Constructing one player per folder, in order; the instances are
    returned in the order of construction. *)
Fixpoint new_players (base_folders : list string)
    (heap : gmap nat (list string))
  : option (gmap nat (list string) * list Instance) :=
  match base_folders with
  | [] => Some (heap, [])
  | folder :: rest =>
      match new_SimpleMpvPlayer folder heap with
      | Some (heap1, self) =>
          match new_players rest heap1 with
          | Some (heap2, others) => Some (heap2, self :: others)
          | None => None
          end
      | None => None
      end
  end.

(** The command line of the process that [_play] starts. *)
Definition popen_command (heap : gmap nat (list string)) (self : Instance)
    (filename : string) : option (list string) :=
  match heap !! args_ref self with
  | Some l => Some (l ++ [filename])
  | None => None
  end.

End MpvPlayerArgs.

(** ** Bundled executables: [_packagedCmd] *)

Module PackagedCmd.

(** What [_packagedCmd] reads from its surroundings: the environment, the
    platform flags of [anki.utils], the directory of bundled executables on
    a Mac and the directory of [sys.argv[0]] elsewhere (both already made
    absolute), which paths exist, and [os.path.join]. *)
Record Host : Type := mkHost {
  environ : gmap string string;
  isMac : bool;
  isWin : bool;
  mac_exeDir : string;
  argv0_dir : string;
  path_exists : string -> bool;
  path_join : string -> string -> string
}.

(** [s.endswith(suffix)]: some tail of [s] is [suffix]. *)
Fixpoint endswith (s suffix : string) : bool :=
  String.eqb s suffix ||
  match s with
  | EmptyString => false
  | String _ s' => endswith s' suffix
  end.

(** The name that is looked up in the directory: on Windows, and not on a
    Mac, [".exe"] is added to a name that does not end with it. *)
Definition lookup_name (h : Host) (name : string) : string :=
  if isMac h then name
  else if isWin h && negb (endswith name ".exe") then name +:+ ".exe"
  else name.

(** [_packagedCmd(cmd)].  [None]: the [IndexError] of [cmd[0]] on an empty
    command. *)
Definition _packagedCmd (h : Host) (cmd : list string)
  : option (list string * gmap string string) :=
  let env := delete "LD_LIBRARY_PATH" (environ h) in
  match cmd with
  | [] => None
  | name :: rest =>
      let exeDir := if isMac h then mac_exeDir h else argv0_dir h in
      let name' := lookup_name h name in
      let path := path_join h exeDir name' in
      if path_exists h path then Some (path :: rest, env)
      else Some (name' :: rest, env)
  end.

End PackagedCmd.

(** ** Play buttons: [av_flags_to_html] *)

Module AVFlags.

(** A Python [str] is a sequence of code points; texts are lists of code
    points here, so that a character is one element whatever its
    encoding. *)
Definition codes (s : string) : list N :=
  map Ascii.N_of_ascii (String.list_ascii_of_string s).

(** [\d] in a [str] pattern: the ASCII digits and the other decimal digits
    of Unicode.  Which code points above ASCII are decimal digits is given
    by [nd]. *)
Definition is_digit (nd : N -> bool) (c : N) : bool :=
  if (c <? 128)%N then (48 <=? c)%N && (c <=? 57)%N else nd c.

(** The two literal parts of [AV_FLAG_RE]. *)
Definition OPEN : list N := codes "[anki:play]".
Definition CLOSE : list N := codes "[/anki:play]".

(** The text after the literal [lit], when the text starts with it. *)
Fixpoint strip_prefix (lit text : list N) : option (list N) :=
  match lit, text with
  | [], _ => Some text
  | a :: lit', c :: text' =>
      if (a =? c)%N then strip_prefix lit' text' else None
  | _ :: _, [] => None
  end.

(** The longest run of digits at the start of the text, and the rest. *)
Fixpoint take_digits (nd : N -> bool) (text : list N) : list N * list N :=
  match text with
  | c :: text' =>
      if is_digit nd c then
        let '(digits, rest) := take_digits nd text' in (c :: digits, rest)
      else ([], text)
  | [] => ([], [])
  end.

(** A match of [AV_FLAG_RE] at the start of the text: group 1 and the text
    after the match.  [\d+] is greedy, and giving back digits cannot help,
    since the literal that follows starts with a bracket and the character
    after a shorter run is a digit; so the longest run is the only one to
    try. *)
Definition match_flag (nd : N -> bool) (text : list N)
  : option (list N * list N) :=
  match strip_prefix OPEN text with
  | Some rest1 =>
      match take_digits nd rest1 with
      | ([], _) => None
      | (digits, rest2) =>
          match strip_prefix CLOSE rest2 with
          | Some rest3 => Some (digits, rest3)
          | None => None
          end
      end
  | None => None
  end.

(** What [repl] returns for a match whose group 1 is [digits]. *)
Definition repl (digits : list N) : list N :=
  [10%N] ++ codes "<a class=soundLink href=# onclick=" ++ [34%N]
    ++ codes "pycmd('play:" ++ digits ++ codes "'); return false;"
    ++ [34%N] ++ codes ">" ++ [10%N]
    ++ codes "  <img class=playImage src='/_anki/imgs/play.png'>" ++ [10%N]
    ++ codes "</a>".

(** [AV_FLAG_RE.sub(repl, text)]: from left to right, a match is replaced
    and the scan goes on after it; where there is none, the character is
    kept.  Every step consumes a character, so [fuel] as large as the text
    is long is enough. *)
Fixpoint sub (fuel : nat) (nd : N -> bool) (text : list N) : list N :=
  match fuel with
  | O => text
  | S fuel' =>
      match text with
      | [] => []
      | c :: text' =>
          match match_flag nd text with
          | Some (digits, rest) => repl digits ++ sub fuel' nd rest
          | None => c :: sub fuel' nd text'
          end
      end
  end.

Definition av_flags_to_html (nd : N -> bool) (text : list N) : list N :=
  sub (length text) nd text.

(** A flag as the backend writes it, for a non-empty run of digits. *)
Definition flag (digits : list N) : list N := OPEN ++ digits ++ CLOSE.

(** Texts made of plain segments and flags. *)
Inductive Segment : Type :=
  | Plain (text : list N)
  | Flag (digits : list N).

Definition source (seg : Segment) : list N :=
  match seg with
  | Plain text => text
  | Flag digits => flag digits
  end.

Definition html (seg : Segment) : list N :=
  match seg with
  | Plain text => text
  | Flag digits => repl digits
  end.

(** A plain segment holds no opening bracket; a flag holds a non-empty run
    of digits. *)
Definition well_formed (nd : N -> bool) (seg : Segment) : Prop :=
  match seg with
  | Plain text => 91%N ∉ text
  | Flag digits =>
      digits <> [] /\ Forall (fun c => is_digit nd c = true) digits
  end.

End AVFlags.

(** ** Recording: [_Recorder] and [PyAudioRecorder] *)

Module Recorder.
Import PackagedCmd.

Definition processingSrc : string := "rec.wav".
Definition processingDst : string := "rec.mp3".

Definition processingChain : list (list string) :=
  [["lame"; processingSrc; processingDst; "--noreplaygain"; "--quiet"]].

(** The files of the working directory that exist, by name. *)
Abbreviation Files := (gset string).

(** What can make an [os.unlink(path)] raise, apart from the absence of
    the file. *)
Inductive Fault : Type :=
  | Refused   (* an [OSError]: the path is in use, protected, a directory *)
  | Invalid.  (* an exception that is not an [OSError], such as the
                 [ValueError] of a path that holds a null character *)

(** The exceptions of [os.unlink]. *)
Inductive UnlinkExn : Type :=
  | UnlinkOSError
  | UnlinkOtherError.

Definition fault_exn (f : Fault) : UnlinkExn :=
  match f with
  | Refused => UnlinkOSError
  | Invalid => UnlinkOtherError
  end.

(** [os.unlink(path)], for the fault that this call meets, if any.  On the
    left the files that exist afterwards, on the right the exception
    raised; without a fault the call raises [OSError] when there is no
    such file. *)
Definition unlink (fault : option Fault) (path : string) (fs : Files)
  : Files + UnlinkExn :=
  match fault with
  | Some f => inr (fault_exn f)
  | None =>
      if decide (path ∈ fs) then inl (fs ∖ {[path]}) else inr UnlinkOSError
  end.

(** How [PyAudioRecorder.__init__] ends: it returns, or an exception
    leaves it. *)
Inductive Ending : Type :=
  | Constructed
  | ConstructorRaised.

(** The loop of [PyAudioRecorder.__init__] over the files left to unlink;
    [faults i] is the fault that the call of [os.unlink] number [i] meets.
    An [OSError] is passed over, any other exception leaves the loop. *)
Fixpoint unlink_each (faults : nat -> option Fault) (i : nat)
    (targets : list string) (fs : Files) : Files * Ending :=
  match targets with
  | [] => (fs, Constructed)
  | t :: rest =>
      match unlink (faults i) t fs with
      | inl fs' => unlink_each faults (S i) rest fs'
      | inr UnlinkOSError => unlink_each faults (S i) rest fs
      | inr UnlinkOtherError => (fs, ConstructorRaised)
      end
  end.

(** [PyAudioRecorder.__init__]: every file of [recFiles + [processingSrc,
    processingDst]] is unlinked in turn. *)
Definition PyAudioRecorder_init (faults : nat -> option Fault)
    (recFiles : list string) (fs : Files) : Files * Ending :=
  unlink_each faults 0 (recFiles ++ [processingSrc; processingDst]) fs.

(** [_Recorder.cleanup], for the fault that its [os.unlink] meets if it is
    called. *)
Definition cleanup (fault : option Fault) (fs : Files) : Files + UnlinkExn :=
  if decide (processingSrc ∈ fs) then unlink fault processingSrc fs
  else inl fs.

(** One call of [proc.wait()] in [retryWait]. *)
Inductive WaitAttempt : Type :=
  | WaitOSError
  | WaitReturned (returncode : Z)
  | WaitRaised.

(** [retryWait(proc)]: the result of the first [wait] that does not raise
    [OSError]: [Some (Some code)] when it returns, [Some None] when it
    raises something else.  [None]: every attempt listed raised [OSError]
    and the loop goes on. *)
Fixpoint retryWait (attempts : list WaitAttempt) : option (option Z) :=
  match attempts with
  | [] => None
  | WaitOSError :: rest => retryWait rest
  | WaitReturned returncode :: _ => Some (Some returncode)
  | WaitRaised :: _ => Some None
  end.

(** What starting the command at position [i] of the chain does:
    [subprocess.Popen] raises ([None]) or gives a process whose [wait] is
    attempted as listed; and what the process does to the files by the
    time the [try] block is left. *)
Abbreviation Launcher :=
  (nat -> list string -> option (list WaitAttempt) * (Files -> Files)).

(** The exceptions that leave [postprocess]. *)
Inductive Exn : Type :=
  | ErrorRunning (command : string)
      (* Exception(_("Error running %s") % " ".join(cmd)) *)
  | UnboundLocalError   (* [cmd] is read before any assignment *)
  | IndexError          (* [c[0]] on an empty command *)
  | CleanupRaised (e : UnlinkExn).
      (* the exception of [os.unlink] in [cleanup], in the [finally] clause *)

Inductive Result : Type :=
  | Returned
  | Raised (e : Exn).

(** The test [not self.encode and c[0] == "lame"]; [None] is the
    [IndexError] of [c[0]], which is evaluated only when not encoding. *)
Definition skipped (encode : bool) (c : list string) : option bool :=
  if encode then Some false
  else match c with
       | [] => None
       | name :: _ => Some (String.eqb name "lame")
       end.

(** The value of [ret] when the [try] statement is left, as a truth value:
    [True] from the [except] clause, else the truth value of the exit
    code.  [None]: [retryWait] does not come back. *)
Definition ret_of (started : option (list WaitAttempt)) : option bool :=
  match started with
  | None => Some true
  | Some attempts =>
      match retryWait attempts with
      | None => None
      | Some (Some returncode) => Some (negb (returncode =? 0))
      | Some None => Some true
      end
  end.

(** The loop of [postprocess] over the rest of the chain, from position
    [i].  [cmd] is the local variable [cmd], unbound at first; [faults i]
    is the fault that the [os.unlink] of [cleanup] meets at position [i].
    The result holds the commands handed to [Popen], in order, and the
    files that exist at the end.  [None]: a [retryWait] does not come
    back. *)
Fixpoint postprocess_loop (h : Host) (launch : Launcher)
    (faults : nat -> option Fault) (encode : bool) (i : nat)
    (chain : list (list string)) (cmd : option (list string))
    (launched : list (list string)) (fs : Files)
  : option (Result * list (list string) * Files) :=
  match chain with
  | [] => Some (Returned, launched, fs)
  | c :: rest =>
      match skipped encode c with
      | None => Some (Raised IndexError, launched, fs)
      | Some true =>
          postprocess_loop h launch faults encode (S i) rest cmd launched fs
      | Some false =>
          (* the [try] block and its [except] clause *)
          let '(ret, cmd1, launched1, fs1) :=
            match _packagedCmd h c with
            | None => (Some true, cmd, launched, fs)
            | Some (cmd', _) =>
                let '(started, written) := launch i cmd' in
                (ret_of started, Some cmd', launched ++ [cmd'], written fs)
            end in
          match ret with
          | None => None
          | Some ret =>
              (* the [finally] clause *)
              match cleanup (faults i) fs1 with
              | inr e => Some (Raised (CleanupRaised e), launched1, fs1)
              | inl fs2 =>
                  if ret then
                    match cmd1 with
                    | Some failed =>
                        Some (Raised (ErrorRunning (String.concat " " failed)),
                              launched1, fs2)
                    | None => Some (Raised UnboundLocalError, launched1, fs2)
                    end
                  else
                    postprocess_loop h launch faults encode (S i) rest cmd1
                                     launched1 fs2
              end
          end
      end
  end.

(** [_Recorder.postprocess(encode)], for the chain that [processingChain]
    holds when it is called. *)
Definition postprocess (h : Host) (launch : Launcher)
    (faults : nat -> option Fault) (encode : bool)
    (chain : list (list string)) (fs : Files)
  : option (Result * list (list string) * Files) :=
  postprocess_loop h launch faults encode 0 chain None [] fs.

(** The command that [_packagedCmd] makes of a command of the chain. *)
Definition packaged (h : Host) (c : list string) : list string :=
  match _packagedCmd h c with
  | Some (cmd', _) => cmd'
  | None => []
  end.

(** The attempts to wait end with [o]: it is the first that does not raise
    [OSError]. *)
Definition first_outcome (attempts : list WaitAttempt) (o : WaitAttempt)
  : Prop :=
  o <> WaitOSError /\
  exists (retries : nat) (rest : list WaitAttempt),
    attempts = replicate retries WaitOSError ++ o :: rest.

(** A command ran well: it was started, and the first [wait] that did not
    raise [OSError] returned the exit code 0. *)
Definition ran_well (started : option (list WaitAttempt)) : Prop :=
  exists attempts,
    started = Some attempts /\ first_outcome attempts (WaitReturned 0).

(** A command failed: it could not be started, or the first [wait] that did
    not raise [OSError] raised something else or returned an exit code
    other than 0. *)
Definition failed (started : option (list WaitAttempt)) : Prop :=
  started = None \/
  exists attempts o,
    started = Some attempts /\ first_outcome attempts o /\
    o <> WaitReturned 0.

(** What a finished run of the loop on non-empty commands, when encoding,
    has done: [n] commands were launched. *)
Definition finished_as (h : Host) (launch : Launcher)
    (faults : nat -> option Fault) (k : nat) (chain : list (list string))
    (res : Result) (n : nat) (fs' : Files) : Prop :=
  match res with
  | Returned =>
      n = length chain /\
      (forall i c, chain !! i = Some c ->
                   ran_well (launch (k + i)%nat (packaged h c)).1) /\
      ((0 < n)%nat -> processingSrc ∉ fs')
  | Raised e =>
      exists i c,
        n = S i /\ chain !! i = Some c /\
        (forall j c', (j < i)%nat -> chain !! j = Some c' ->
                      ran_well (launch (k + j)%nat (packaged h c')).1) /\
        ((exists f, e = CleanupRaised (fault_exn f) /\
                    faults (k + i)%nat = Some f /\ processingSrc ∈ fs')
         \/ (e = ErrorRunning (String.concat " " (packaged h c)) /\
             failed (launch (k + i)%nat (packaged h c)).1 /\
             processingSrc ∉ fs'))
  end.

End Recorder.

(** ** Plays and stops in turn on one process-backed player *)

Module Rounds.
Import SimpleProcessPlayer.

(** One round on the primary context: [play] of a file whose process is
    still running at the first wait of the supervising loop, whatever
    happens after that wait; then, once the task has delivered its result
    and no supervising loop is running any more, [stop()], on the clock of
    the round.  The state is the player and the state of the primary
    context; the result holds also the number of sleeps of the [stop]. *)
Definition round {S : Type} (args : list string) (on_done : S -> S)
    (st : t * S) (r : string * list Step * Clock) : option (t * S * nat) :=
  let '(s, main) := st in
  let '(filename, later, clock) := r in
  match play args (SoundOrVideoTag filename) on_done
             (Wait TimeoutExpired :: later) s main with
  | Some (s1, Ok main1) =>
      match stop (fun _ s => s) clock s1 with
      | Some (s2, sleeps) => Some (s2, main1, sleeps)
      | None => None
      end
  | _ => None
  end.

(** Rounds in sequence, one per file; the numbers of sleeps are returned
    in the order of the rounds. *)
Fixpoint rounds {S : Type} (args : list string) (on_done : S -> S)
    (rs : list (string * list Step * Clock)) (st : t * S)
  : option (t * S * list nat) :=
  match rs with
  | [] => Some (st, [])
  | r :: rest =>
      match round args on_done st r with
      | Some (s', main', sleeps) =>
          match rounds args on_done rest (s', main') with
          | Some (st', more) => Some (st', sleeps :: more)
          | None => None
          end
      | None => None
      end
  end.

(** What the rounds add to the effects: each file is launched and its
    process terminated. *)
Definition launched_and_terminated (args : list string)
    (rs : list (string * list Step * Clock)) : list Effect :=
  concat (map (fun r : string * list Step * Clock =>
                 [Launched (args ++ [r.1.1]); Terminated])
              rs).

(** The [stop] of a round lasted 10 seconds or more. *)
Definition blocked_for_ceiling (r : string * list Step * Clock) (sleeps : nat)
  : Prop :=
  CEILING r.2 <= reading r.2 sleeps - t0 r.2.

End Rounds.

(** * Properties *)

(** ** Player selection *)

Section SelectionFacts.
Import AVPlayer.

Implicit Types (l : list (Z * Player)) (x y : Z * Player).

Lemma insert_by_rank_elem x y l :
  y ∈ insert_by_rank x l <-> y = x \/ y ∈ l.
Proof.
  induction l as [|z l IH]; simpl.
  - rewrite list_elem_of_singleton, elem_of_nil. tauto.
  - destruct (x.1 <=? z.1).
    + rewrite !elem_of_cons. tauto.
    + rewrite !elem_of_cons, IH. tauto.
Qed.

Lemma sort_by_rank_elem y l : y ∈ sort_by_rank l <-> y ∈ l.
Proof.
  induction l as [|z l IH]; simpl; [tauto|].
  rewrite insert_by_rank_elem, elem_of_cons, IH. tauto.
Qed.

Lemma insert_by_rank_ascending x l :
  ascending l -> ascending (insert_by_rank x l).
Proof.
  induction l as [|z l IH]; simpl.
  - intros _. split; [|exact I]. intros y Hy. inversion Hy.
  - intros [Hz Hl]. destruct (Z.leb_spec (x.1) (z.1)) as [Hle|Hgt]; simpl.
    + split; [|tauto]. intros y Hy. apply elem_of_cons in Hy as [->|Hy].
      * exact Hle.
      * specialize (Hz y Hy). lia.
    + split; [|auto]. intros y Hy.
      apply insert_by_rank_elem in Hy as [->|Hy]; [lia|auto].
Qed.

(** The model of [list.sort] sorts: its result is ascending... *)
Lemma sort_by_rank_ascending l : ascending (sort_by_rank l).
Proof.
  induction l as [|z l IH]; simpl; [exact I|].
  by apply insert_by_rank_ascending.
Qed.

Lemma insert_by_rank_of_rank k x l :
  ascending l ->
  of_rank k (insert_by_rank x l) = of_rank k (x :: l).
Proof.
  unfold of_rank. induction l as [|z l IH]; simpl; [done|].
  intros [Hz Hl]. destruct (Z.leb_spec (x.1) (z.1)) as [Hle|Hgt]; [done|].
  rewrite (filter_cons _ z), IH by done.
  rewrite !(filter_cons _ x), !(filter_cons _ z).
  repeat case_decide; try done; lia.
Qed.

(** ... and it is stable: the entries of any one rank keep the order in
    which the registry loop produced them. *)
Lemma sort_by_rank_stable k l : of_rank k (sort_by_rank l) = of_rank k l.
Proof.
  induction l as [|z l IH]; simpl; [done|].
  rewrite insert_by_rank_of_rank by apply sort_by_rank_ascending.
  unfold of_rank in *. by rewrite !(filter_cons _ z), IH.
Qed.

Lemma ascending_last_max l z :
  ascending l -> last l = Some z -> forall y, y ∈ l -> y.1 <= z.1.
Proof.
  induction l as [|a l IH]; simpl; [done|].
  intros [Ha Hl] Hlast y Hy.
  destruct l as [|b l].
  - simpl in Hlast. injection Hlast as <-.
    apply list_elem_of_singleton in Hy as ->. lia.
  - change (last (a :: b :: l)) with (last (b :: l)) in Hlast.
    apply elem_of_cons in Hy as [->|Hy].
    + apply Ha. apply last_Some_elem_of in Hlast. exact Hlast.
    + by apply IH.
Qed.

Lemma last_insert_by_rank x l :
  ascending l ->
  last (insert_by_rank x l) =
    match last l with
    | None => Some x
    | Some y => if y.1 <? x.1 then Some x else Some y
    end.
Proof.
  induction l as [|a l IH]; [done|].
  intros Hasc. pose proof Hasc as [Ha Hl]. simpl insert_by_rank.
  destruct (Z.leb_spec (x.1) (a.1)) as [Hle|Hgt].
  - change (last (x :: a :: l)) with (last (a :: l)).
    destruct (last (a :: l)) as [z|] eqn:Hlast;
      [|by apply last_None in Hlast].
    assert (a.1 <= z.1)
      by (eapply ascending_last_max;
          [exact Hasc|exact Hlast|apply list_elem_of_here]).
    destruct (Z.ltb_spec (z.1) (x.1)); [lia|done].
  - destruct l as [|b l].
    + simpl. destruct (Z.ltb_spec (a.1) (x.1)); [done|lia].
    + assert (last (a :: insert_by_rank x (b :: l))
              = last (insert_by_rank x (b :: l))) as ->.
      { simpl. by destruct (x.1 <=? b.1). }
      by rewrite IH.
Qed.

(** The last entry of the sorted list is the rightmost maximum of the
    unsorted one. *)
Lemma last_sort_by_rank l : last (sort_by_rank l) = latest_max l.
Proof.
  induction l as [|x l IH]; [done|]. simpl.
  rewrite last_insert_by_rank by apply sort_by_rank_ascending.
  by rewrite IH.
Qed.

Lemma latest_max_None l : latest_max l = None -> l = [].
Proof.
  destruct l as [|x l]; [done|]. simpl.
  destruct (latest_max l) as [y|]; [|done]. by destruct (y.1 <? x.1).
Qed.

Lemma ranked_players_nil ps tag :
  ranked_players ps tag = [] <->
  forall p, p ∈ ps -> rank_for_tag p tag = None.
Proof.
  induction ps as [|q ps IH]; simpl.
  - split; [|done]. intros _ p Hp. inversion Hp.
  - destruct (rank_for_tag q tag) as [r|] eqn:Hq.
    + split; [done|]. intros H. specialize (H q). rewrite Hq in H.
      discriminate H. apply list_elem_of_here.
    + rewrite IH. split.
      * intros H p Hp. apply elem_of_cons in Hp as [->|Hp]; auto.
      * intros H p Hp. apply H. by apply list_elem_of_further.
Qed.

Lemma ranked_players_rank ps tag r p :
  (r, p) ∈ ranked_players ps tag ->
  p ∈ ps /\ rank_for_tag p tag = Some r.
Proof.
  induction ps as [|q ps IH]; simpl; [by intros H; inversion H|].
  destruct (rank_for_tag q tag) as [rq|] eqn:Hq.
  - intros H. apply elem_of_cons in H as [[= -> ->]|H].
    + split; [apply list_elem_of_here|done].
    + destruct (IH H). split; [by apply list_elem_of_further|done].
  - intros H. destruct (IH H). split; [by apply list_elem_of_further|done].
Qed.

(** The rightmost maximum of the ranked entries, located in the registry. *)
Lemma latest_max_ranked_players ps tag r p :
  latest_max (ranked_players ps tag) = Some (r, p) ->
  exists before after,
    ps = before ++ p :: after /\
    rank_for_tag p tag = Some r /\
    (forall q rq, q ∈ before -> rank_for_tag q tag = Some rq -> rq <= r) /\
    (forall q rq, q ∈ after -> rank_for_tag q tag = Some rq -> rq < r).
Proof.
  revert r p. induction ps as [|a ps IH]; simpl; [done|].
  intros r p. destruct (rank_for_tag a tag) as [ra|] eqn:Ha.
  - simpl. destruct (latest_max (ranked_players ps tag)) as [[r' p']|] eqn:Hm.
    + simpl. destruct (IH _ _ eq_refl) as (bf & af & -> & Hr & Hb & Haf).
      destruct (Z.ltb_spec r' ra) as [Hlt|Hge]; intros [= <- <-].
      * exists [], (bf ++ p' :: af). split; [done|]. split; [done|].
        split; [intros q rq Hq; inversion Hq|].
        intros q rq Hq Hrq.
        apply elem_of_app in Hq as [Hq|Hq].
        { specialize (Hb _ _ Hq Hrq). lia. }
        apply elem_of_cons in Hq as [->|Hq].
        { rewrite Hr in Hrq. injection Hrq as <-. lia. }
        specialize (Haf _ _ Hq Hrq). lia.
      * exists (a :: bf), af. split; [done|]. split; [done|].
        split; [|done]. intros q rq Hq Hrq.
        apply elem_of_cons in Hq as [->|Hq]; [|eauto].
        rewrite Ha in Hrq. injection Hrq as <-. lia.
    + apply latest_max_None in Hm. intros [= <- <-].
      exists [], ps. split; [done|]. split; [done|].
      split; [intros q rq Hq; inversion Hq|].
      intros q rq Hq Hrq.
      apply (proj1 (ranked_players_nil ps tag)) with (p := q) in Hm; [|done].
      congruence.
  - intros Hm. destruct (IH _ _ Hm) as (bf & af & -> & Hr & Hb & Haf).
    exists (a :: bf), af. split; [done|]. split; [done|].
    split; [|done]. intros q rq Hq Hrq.
    apply elem_of_cons in Hq as [->|Hq]; [congruence|eauto].
Qed.

(** At most one position of a registry holds the latest player of highest
    rank. *)
Lemma latest_highest_unique ps tag p q :
  latest_highest ps tag p -> latest_highest ps tag q -> p = q.
Proof.
  intros (b1 & a1 & r1 & -> & Hr1 & Hb1 & Ha1)
         (b2 & a2 & r2 & Heq & Hr2 & Hb2 & Ha2).
  revert b2 Heq Hb2. induction b1 as [|x b1 IH]; intros [|y b2] Heq Hb2.
  - by injection Heq.
  - injection Heq as -> ->.
    assert (r1 <= r2) by (eapply Hb2; [apply list_elem_of_here|done]).
    assert (r2 < r1).
    { eapply Ha1; [|done]. apply elem_of_app. right.
      apply list_elem_of_here. }
    lia.
  - injection Heq as <- <-.
    assert (r2 <= r1) by (eapply Hb1; [apply list_elem_of_here|done]).
    assert (r1 < r2).
    { eapply Ha2; [|done]. apply elem_of_app. right.
      apply list_elem_of_here. }
    lia.
  - injection Heq as -> Heq. eapply IH; [|exact Heq|].
    + intros z rz Hz. apply Hb1. by apply list_elem_of_further.
    + intros z rz Hz. apply Hb2. by apply list_elem_of_further.
Qed.

(** C1. For every registry and every tag, the selection returns no player
    exactly when no registered player ranks the tag, and it returns [p]
    exactly when [p] sits at a position of the registry where its rank is
    at least every rank before it and strictly above every rank after it:
    the highest rank wins and, among the players of highest rank, the one
    registered last.  The result is a function of the registry and the
    tag alone, so two calls on the same registry and tag agree. *)
Theorem best_player_latest_highest_rank :
  forall (registry : list Player) (tag : AVTag),
    (_best_player_for_tag registry tag = None <->
     forall p, p ∈ registry -> rank_for_tag p tag = None) /\
    (forall p, _best_player_for_tag registry tag = Some p <->
               latest_highest registry tag p) /\
    (forall first second,
        first = _best_player_for_tag registry tag ->
        second = _best_player_for_tag registry tag ->
        first = second).
Proof.
  intros registry tag.
  assert (Hnone : _best_player_for_tag registry tag = None <->
                  forall p, p ∈ registry -> rank_for_tag p tag = None).
  { unfold _best_player_for_tag. rewrite last_sort_by_rank.
    rewrite <- ranked_players_nil.
    destruct (latest_max (ranked_players registry tag)) eqn:Hm.
    - split; [done|]. intros Hnil. by rewrite Hnil in Hm.
    - split; [|done]. intros _. by apply latest_max_None. }
  assert (Hsome : forall p, _best_player_for_tag registry tag = Some p ->
                            latest_highest registry tag p).
  { intros p. unfold _best_player_for_tag. rewrite last_sort_by_rank.
    destruct (latest_max (ranked_players registry tag)) as [[r q]|] eqn:Hm;
      [|done].
    intros [= <-]. destruct (latest_max_ranked_players _ _ _ _ Hm)
      as (bf & af & H). by exists bf, af, r. }
  split; [exact Hnone|]. split; [|congruence].
  intros p. split; [apply Hsome|]. intros Hp.
  destruct (_best_player_for_tag registry tag) as [q|] eqn:Hq.
  - f_equal. eapply latest_highest_unique; [|exact Hp]. by apply Hsome.
  - destruct Hp as (bf & af & r & -> & Hr & _).
    rewrite (proj1 Hnone eq_refl p) in Hr; [done|].
    apply elem_of_app. right. apply list_elem_of_here.
Qed.

(** The two registries of the specification's example. *)
Example best_player_tie_goes_to_later :
  let A := mkPlayer 0 (fun _ => Some 1) in
  let B := mkPlayer 1 (fun _ => Some 1) in
  _best_player_for_tag [A; B] (SoundOrVideoTag "a.mp3") = Some B.
Proof. reflexivity. Qed.

Example best_player_higher_rank_wins :
  let A := mkPlayer 0 (fun _ => Some 2) in
  let B := mkPlayer 1 (fun _ => Some 1) in
  _best_player_for_tag [A; B] (SoundOrVideoTag "a.mp3") = Some A.
Proof. reflexivity. Qed.

End SelectionFacts.

(** ** The scheduler *)

Section SchedulerFacts.
Import AVPlayer.

Implicit Types (s : t) (evs : list Event) (cur : option Player).

Lemma playing_after_from evs : playing_after evs = playing_from None evs.
Proof. reflexivity. Qed.

Lemma playing_from_snoc cur evs e :
  playing_from cur (evs ++ [e]) =
    match e with
    | EvPlay p _ => Some p
    | EvStop _ => None
    | EvDidPlay => None
    | _ => playing_from cur evs
    end.
Proof. unfold playing_from. rewrite foldl_snoc. by destruct e. Qed.

Lemma exclusive_from_snoc cur evs e :
  exclusive_from cur (evs ++ [e]) =
    exclusive_from cur evs &&
    match e, playing_from cur evs with
    | EvPlay _ _, Some _ => false
    | _, _ => true
    end.
Proof.
  revert cur. induction evs as [|a evs IH]; intros cur.
  - simpl. destruct e, cur; reflexivity.
  - destruct a; simpl; try apply IH.
    destruct cur; [reflexivity|apply IH].
Qed.

Lemma consistent_init registry interrupt :
  consistent (init registry interrupt).
Proof. split; reflexivity. Qed.

Ltac snoc_events :=
  unfold exclusive; rewrite ?playing_after_from;
  rewrite ?exclusive_from_snoc, ?playing_from_snoc; simpl.

Lemma consistent_set_enqueued q s : consistent s -> consistent (set_enqueued q s).
Proof. intros [? ?]. split; assumption. Qed.

Lemma consistent_stop_if_playing s :
  consistent s -> consistent (_stop_if_playing s).
Proof.
  intros [Hx Hp]. unfold consistent, _stop_if_playing.
  destruct (current_player s) as [p|] eqn:Hc; simpl.
  - snoc_events. unfold exclusive in Hx. by rewrite Hx.
  - by split.
Qed.

Lemma consistent_play tag s :
  consistent s -> current_player s = None -> consistent (_play tag s).
Proof.
  intros [Hx Hp] Hc. unfold consistent, _play.
  rewrite Hc in Hp. rewrite playing_after_from in Hp. unfold exclusive in Hx.
  destruct (_best_player_for_tag (players s) tag) as [best|]; simpl;
    snoc_events; rewrite ?Hx, ?Hp, ?Hc; done.
Qed.

Lemma consistent_play_next_if_idle s :
  consistent s -> consistent (_play_next_if_idle s).
Proof.
  intros Hs. unfold _play_next_if_idle, _pop_next.
  destruct (current_player s) as [p|] eqn:Hc; [done|].
  destruct (_enqueued s) as [|next rest]; [done|].
  apply consistent_play; [by apply consistent_set_enqueued|done].
Qed.

Lemma consistent_on_play_finished s :
  consistent s -> consistent (_on_play_finished s).
Proof.
  intros [Hx Hp]. unfold _on_play_finished.
  apply consistent_play_next_if_idle. unfold consistent. simpl.
  snoc_events. unfold exclusive in Hx. rewrite Hx.
  split; [|done]. by destruct (playing_from None (events s)).
Qed.

Lemma consistent_step s o : consistent s -> consistent (step s o).
Proof.
  intros Hs. destruct o as [tags|tags|filename| |]; simpl.
  - unfold play_tags. apply consistent_play_next_if_idle.
    destruct (interrupt_current_audio (set_enqueued tags s)).
    + by apply consistent_stop_if_playing, consistent_set_enqueued.
    + by apply consistent_set_enqueued.
  - by apply consistent_play_next_if_idle, consistent_set_enqueued.
  - by apply consistent_play_next_if_idle, consistent_set_enqueued.
  - by apply consistent_on_play_finished.
  - by apply consistent_stop_if_playing, consistent_set_enqueued.
Qed.

Lemma consistent_run ops s : consistent s -> consistent (run ops s).
Proof.
  revert s. induction ops as [|o ops IH]; intros s Hs; [done|].
  simpl. by apply IH, consistent_step.
Qed.

(** C3. After every sequence of scheduler operations, started from a new
    scheduler: no [play] of the trace was issued while an earlier play was
    neither stopped nor completed; the player that the trace leaves
    playing is the one in the active-player slot; the slot names at most
    one player; and while it names one, [_play_next_if_idle] does nothing:
    the state, the queue and the trace included, is unchanged. *)
Theorem at_most_one_player_active :
  forall (registry : list Player) (interrupt : bool) (ops : list Op),
    let s := run ops (init registry interrupt) in
    exclusive (events s) = true /\
    playing_after (events s) = current_player s /\
    (forall p q, current_player s = Some p -> current_player s = Some q ->
                 p = q) /\
    (forall p, current_player s = Some p -> _play_next_if_idle s = s).
Proof.
  intros registry interrupt ops s.
  destruct (consistent_run ops _ (consistent_init registry interrupt))
    as [Hx Hp].
  split; [exact Hx|]. split; [exact Hp|]. split.
  - congruence.
  - intros p Hc. unfold _play_next_if_idle. by rewrite Hc.
Qed.

(** *** Dispatch of a tag that no player ranks *)

Lemma best_player_none ps tag :
  (forall p, p ∈ ps -> rank_for_tag p tag = None) ->
  _best_player_for_tag ps tag = None.
Proof.
  intros H. unfold _best_player_for_tag.
  by rewrite (proj2 (ranked_players_nil ps tag) H).
Qed.

(** C7. When the scheduler is idle and no registered player ranks the tag
    at the head of the queue, a dispatch removes that tag from the queue,
    writes the diagnostic and does nothing else: no [play] is issued,
    the active-player slot stays empty and the tags behind it stay queued
    in order.  The popped tag is not put back: a dispatch triggered later
    starts from the tag that was behind it. *)
Theorem dispatch_without_player_reports_and_stays_idle :
  forall (s : t) (tag : AVTag) (rest : list AVTag),
    current_player s = None ->
    _enqueued s = tag :: rest ->
    (forall p, p ∈ players s -> rank_for_tag p tag = None) ->
    let s' := _play_next_if_idle s in
    s' = emit (EvNoPlayersFound tag) (set_enqueued rest s) /\
    events s' = events s ++ [EvNoPlayersFound tag] /\
    plays (events s') = plays (events s) /\
    current_player s' = None /\
    _enqueued s' = rest /\
    _play_next_if_idle s' =
      match rest with
      | [] => s'
      | next :: rest' => _play next (set_enqueued rest' s')
      end.
Proof.
  intros s tag rest Hc Hq Hnone s'.
  assert (Hs' : s' = emit (EvNoPlayersFound tag) (set_enqueued rest s)).
  { subst s'. unfold _play_next_if_idle, _pop_next, _play.
    rewrite Hc, Hq. simpl. by rewrite (best_player_none _ _ Hnone). }
  split; [exact Hs'|]. rewrite Hs'. simpl.
  split; [done|]. split.
  { unfold plays. rewrite omap_app. simpl. by rewrite app_nil_r. }
  split; [done|]. split; [done|].
  unfold _play_next_if_idle, _pop_next. simpl. rewrite Hc.
  by destruct rest.
Qed.

Lemma dispatch_without_player_witness :
  let mplayer := mkPlayer 0 (SoundOrVideoPlayer_rank_for_tag 0) in
  let s := mk [mplayer] true [TTSTag "hello"; SoundOrVideoTag "a.mp3"]
              None [] in
  let s' := _play_next_if_idle s in
  events s' = [EvNoPlayersFound (TTSTag "hello")] /\
  current_player s' = None /\
  _enqueued s' = [SoundOrVideoTag "a.mp3"].
Proof.
  intros mplayer s.
  destruct (dispatch_without_player_reports_and_stays_idle
              s (TTSTag "hello") [SoundOrVideoTag "a.mp3"])
    as (_ & He & _ & Hc & Hq & _).
  - reflexivity.
  - reflexivity.
  - intros p Hp. apply list_elem_of_singleton in Hp. subst p. reflexivity.
  - split; [exact He|]. split; [exact Hc|exact Hq].
Defined.

(** The scenario of the specification: an empty registry. *)
Example play_tags_with_empty_registry :
  play_tags [SoundOrVideoTag "a.mp3"] (init [] true) =
    mk [] true [] None [EvNoPlayersFound (SoundOrVideoTag "a.mp3")].
Proof. reflexivity. Qed.

(** *** [extend_and_play] *)

Lemma enqueue_while_active s p o :
  current_player s = Some p -> is_enqueue o = true ->
  current_player (step s o) = Some p /\
  events (step s o) = events s /\
  exists front back, _enqueued (step s o) = front ++ _enqueued s ++ back.
Proof.
  intros Hc Ho. destruct o as [tags|tags|filename| |]; try discriminate Ho;
    simpl; unfold extend_and_play, insert_file, _play_next_if_idle; simpl;
    rewrite Hc; simpl; (split; [done|]); (split; [done|]).
  - exists [], tags. done.
  - exists [SoundOrVideoTag filename], []. by rewrite app_nil_r.
Qed.

Lemma enqueues_while_active ops s p :
  current_player s = Some p -> forallb is_enqueue ops = true ->
  current_player (run ops s) = Some p /\
  events (run ops s) = events s /\
  exists front back, _enqueued (run ops s) = front ++ _enqueued s ++ back.
Proof.
  revert s. induction ops as [|o ops IH]; intros s Hc Hops.
  - split; [done|]. split; [done|]. exists [], []. by rewrite app_nil_r.
  - simpl in Hops. apply andb_true_iff in Hops as [Ho Hops].
    destruct (enqueue_while_active s p o Hc Ho) as (Hc1 & He1 & f1 & b1 & Hq1).
    destruct (IH (step s o) Hc1 Hops) as (Hc2 & He2 & f2 & b2 & Hq2).
    change (run (o :: ops) s) with (run ops (step s o)).
    split; [done|]. split; [congruence|].
    exists (f2 ++ f1), (b1 ++ b2). rewrite Hq2, Hq1.
    by rewrite <- !app_assoc.
Qed.

(** C8. While a player is active, [extend_and_play tags] appends [tags] to
    the end of the queue and changes nothing else: the registry, the
    active player and the trace are as before, so nothing is stopped and
    nothing is started; and as long as only enqueueing operations follow,
    the same player stays active, no event is issued and the queue still
    holds the earlier tags followed by [tags].  When the scheduler is
    idle, the head of the extended queue is popped and dispatched. *)
Theorem extend_and_play_appends_without_interrupting :
  forall (s : t) (tags : list AVTag),
    (forall p, current_player s = Some p ->
       extend_and_play tags s = set_enqueued (_enqueued s ++ tags) s /\
       forall ops, forallb is_enqueue ops = true ->
         let s' := run ops (extend_and_play tags s) in
         current_player s' = Some p /\
         events s' = events s /\
         exists front back,
           _enqueued s' = front ++ (_enqueued s ++ tags) ++ back) /\
    (current_player s = None ->
       forall next rest, _enqueued s ++ tags = next :: rest ->
         extend_and_play tags s = _play next (set_enqueued rest s)).
Proof.
  intros s tags. split.
  - intros p Hc.
    assert (Hx : extend_and_play tags s
                 = set_enqueued (_enqueued s ++ tags) s).
    { unfold extend_and_play, _play_next_if_idle. simpl. by rewrite Hc. }
    split; [exact Hx|]. intros ops Hops. rewrite Hx.
    by apply (enqueues_while_active ops (set_enqueued _ s) p).
  - intros Hc next rest Hq.
    unfold extend_and_play, _play_next_if_idle, _pop_next. simpl.
    by rewrite Hc, Hq.
Qed.

Lemma extend_and_play_witness :
  let mplayer := mkPlayer 0 (SoundOrVideoPlayer_rank_for_tag 0) in
  let a := SoundOrVideoTag "a.mp3" in
  let b := SoundOrVideoTag "b.mp3" in
  let c := SoundOrVideoTag "c.mp3" in
  let s := play_tags [a; b] (init [mplayer] true) in
  current_player s = Some mplayer /\
  extend_and_play [c] s = set_enqueued [b; c] s /\
  events (insert_file "d.mp3" (extend_and_play [c] s)) = events s /\
  extend_and_play [c] (init [mplayer] true) =
    _play c (init [mplayer] true).
Proof.
  intros mplayer a b c s.
  destruct (extend_and_play_appends_without_interrupting s [c])
    as [Hactive _].
  destruct (Hactive mplayer eq_refl) as [Hx Hops].
  destruct (Hops [OpInsertFile "d.mp3"] eq_refl) as (_ & He & _).
  destruct (extend_and_play_appends_without_interrupting
              (init [mplayer] true) [c]) as [_ Hidle].
  split; [reflexivity|]. split; [exact Hx|]. split; [exact He|].
  exact (Hidle eq_refl c [] eq_refl).
Defined.

(** *** [play_tags] on an empty list *)

(** C10. With the interrupt policy enabled, [play_tags []] does what
    [stop_and_clear_queue] does: the queue becomes empty, the active
    player, if there is one, is told to stop, the active-player slot is
    cleared, and nothing is dispatched: the only event is that stop, and
    no [play] is added to the trace.  The operation is total: it returns
    a state on every input. *)
Theorem play_tags_empty_acts_as_stop :
  forall (s : t),
    interrupt_current_audio s = true ->
    let s' := play_tags [] s in
    s' = stop_and_clear_queue s /\
    _enqueued s' = [] /\
    current_player s' = None /\
    events s' = events s ++ match current_player s with
                            | Some p => [EvStop p]
                            | None => []
                            end /\
    plays (events s') = plays (events s) /\
    players s' = players s.
Proof.
  intros s Hi s'. subst s'.
  unfold play_tags, stop_and_clear_queue, _play_next_if_idle, _pop_next,
    _stop_if_playing. simpl. rewrite Hi.
  destruct (current_player s) as [p|]; simpl.
  - repeat (split; [done|]). split; [|done].
    unfold plays. rewrite omap_app. simpl. by rewrite app_nil_r.
  - rewrite app_nil_r. done.
Qed.

Lemma play_tags_empty_witness :
  let mplayer := mkPlayer 0 (SoundOrVideoPlayer_rank_for_tag 0) in
  let a := SoundOrVideoTag "a.mp3" in
  let b := SoundOrVideoTag "b.mp3" in
  let s := play_tags [a; b] (init [mplayer] true) in
  let s' := play_tags [] s in
  _enqueued s' = [] /\
  current_player s' = None /\
  events s' = [EvWillPlay a; EvPlay mplayer a; EvStop mplayer].
Proof.
  intros mplayer a b s.
  destruct (play_tags_empty_acts_as_stop s eq_refl)
    as (_ & Hq & Hc & He & _).
  split; [exact Hq|]. split; [exact Hc|exact He].
Defined.

End SchedulerFacts.

(** ** Process-backed players *)

Section ProcessPlayerFacts.
Import SimpleProcessPlayer.

Implicit Types (s : t) (schedule : list Step).

Ltac player_fields :=
  unfold set_terminate_flag, set_process, effect; simpl.

(** While the supervisor leaves the process alone, the loop keeps
    running and only the flag may change. *)
Lemma wait_loop_left_running pre rest s :
  left_running (_terminate_flag s) pre = true ->
  exists flag,
    wait_loop (pre ++ rest) s = wait_loop rest (set_terminate_flag flag s).
Proof.
  revert s. induction pre as [|[[rc|]|] pre IH]; intros s Hrun; simpl in *.
  - exists (_terminate_flag s). by destruct s.
  - discriminate Hrun.
  - destruct (_terminate_flag s) eqn:Hf; [discriminate Hrun|].
    simpl in Hrun. apply IH. by rewrite Hf.
  - destruct (IH (set_terminate_flag true s) Hrun) as [flag ->].
    by exists flag.
Qed.

(** A process that exits on its own: the task returns, the exit code is
    printed when it is not zero, and the handle and the flag are
    cleared... *)
Lemma _play_natural_exit (args : list string) (filename : string)
    (pre rest : list Step) (rc : Z) s :
  left_running (_terminate_flag s) pre = true ->
  _play args (SoundOrVideoTag filename) (pre ++ Wait (Exited rc) :: rest) s
  = Some (Returned,
          mk false None
             (effects s ++ [Launched (args ++ [filename])]
                ++ (if rc =? 0 then [] else [PrintedReturnCode rc]))).
Proof.
  intros Hrun. unfold _play, _wait_for_termination.
  edestruct (wait_loop_left_running pre (Wait (Exited rc) :: rest))
    as [flag ->]; [exact Hrun|].
  simpl. destruct (rc =? 0); player_fields.
  - done.
  - by rewrite <- app_assoc.
Qed.

(** ... and the callback is applied once. *)
Lemma play_natural_exit {S : Type} (args : list string) (filename : string)
    (on_done : S -> S) (pre rest : list Step) (rc : Z) s (main : S) :
  left_running (_terminate_flag s) pre = true ->
  play args (SoundOrVideoTag filename) on_done
       (pre ++ Wait (Exited rc) :: rest) s main
  = Some (mk false None
             (effects s ++ [Launched (args ++ [filename])]
                ++ (if rc =? 0 then [] else [PrintedReturnCode rc])),
          Ok (on_done main)).
Proof.
  intros Hrun. unfold play.
  by rewrite (_play_natural_exit args filename pre rest rc s Hrun).
Qed.

(** A stop request that the loop sees at a wait that times out: the
    process is terminated, the handle and the flag are cleared, and the
    callback is not applied. *)
Lemma play_interrupted {S : Type} (args : list string) (filename : string)
    (on_done : S -> S) (pre rest : list Step) s (main : S) :
  left_running (_terminate_flag s) pre = true ->
  play args (SoundOrVideoTag filename) on_done
       (pre ++ StopRequested :: Wait TimeoutExpired :: rest) s main
  = Some (mk false None
             (effects s ++ [Launched (args ++ [filename]); Terminated]),
          Ok main).
Proof.
  intros Hrun. unfold play, _play, _wait_for_termination.
  edestruct (wait_loop_left_running pre
               (StopRequested :: Wait TimeoutExpired :: rest))
    as [flag ->]; [exact Hrun|].
  simpl. player_fields. by rewrite <- app_assoc.
Qed.

(** C6. A play whose process exits on its own with a non-zero exit code,
    after any number of waits during which the supervisor left it alone:
    the exit code is printed, the background task returns instead of
    raising [PlayerInterrupted], the process handle and the flag are
    cleared, and [on_done] is applied to the state of the primary
    context, once. *)
Theorem nonzero_exit_is_natural_completion :
  forall (S : Type) (args : list string) (filename : string)
         (on_done : S -> S) (pre rest : list Step) (rc : Z)
         (s : t) (main : S),
    rc <> 0 ->
    left_running (_terminate_flag s) pre = true ->
    let schedule := pre ++ Wait (Exited rc) :: rest in
    _play args (SoundOrVideoTag filename) schedule s
    = Some (Returned,
            mk false None
               (effects s ++ [Launched (args ++ [filename]);
                              PrintedReturnCode rc])) /\
    play args (SoundOrVideoTag filename) on_done schedule s main
    = Some (mk false None
               (effects s ++ [Launched (args ++ [filename]);
                              PrintedReturnCode rc]),
            Ok (on_done main)).
Proof.
  intros S args filename on_done pre rest rc s main Hrc Hrun schedule.
  subst schedule. apply Z.eqb_neq in Hrc. split.
  - rewrite (_play_natural_exit args filename pre rest rc s Hrun).
    by rewrite Hrc.
  - rewrite (play_natural_exit args filename on_done pre rest rc s main Hrun).
    by rewrite Hrc.
Qed.

Lemma nonzero_exit_witness :
  play ["mplayer"] (SoundOrVideoTag "a.mp3") Nat.succ
       [Wait TimeoutExpired; Wait TimeoutExpired; Wait (Exited 1)]
       init 0%nat
  = Some (mk false None
             [Launched ["mplayer"; "a.mp3"]; PrintedReturnCode 1],
          Ok 1%nat).
Proof.
  refine (proj2 (nonzero_exit_is_natural_completion
                   nat ["mplayer"] "a.mp3" Nat.succ
                   [Wait TimeoutExpired; Wait TimeoutExpired] [] 1
                   init 0%nat _ _)).
  - lia.
  - reflexivity.
Defined.

(** *** Interruption *)

Lemma left_running_stop_last (flag : bool) (pre : list Step) :
  left_running flag pre = true ->
  left_running flag (pre ++ [StopRequested]) = true.
Proof.
  revert flag. induction pre as [|[[rc|]|] pre IH]; intros flag; simpl;
    [done|done| |by apply IH].
  intros [Hflag Hpre]%andb_true_iff. rewrite Hflag. by apply IH.
Qed.

(** A stop request during the wait in which the process exits on its own
    goes unnoticed: the task returns and the callback is applied. *)
Lemma play_stop_then_exit {S : Type} (args : list string) (filename : string)
    (on_done : S -> S) (pre rest : list Step) (rc : Z) s (main : S) :
  left_running (_terminate_flag s) pre = true ->
  play args (SoundOrVideoTag filename) on_done
       (pre ++ StopRequested :: Wait (Exited rc) :: rest) s main
  = Some (mk false None
             (effects s ++ [Launched (args ++ [filename])]
                ++ (if rc =? 0 then [] else [PrintedReturnCode rc])),
          Ok (on_done main)).
Proof.
  intros Hrun.
  replace (pre ++ StopRequested :: Wait (Exited rc) :: rest)
    with ((pre ++ [StopRequested]) ++ Wait (Exited rc) :: rest)
    by (by rewrite <- app_assoc).
  by apply play_natural_exit, left_running_stop_last.
Qed.

(** A flag that is already raised when a play starts ends that play at its
    first wait that times out, although nobody asked for a stop during
    it. *)
Lemma play_with_stale_flag {S : Type} (args : list string) (filename : string)
    (on_done : S -> S) (rest : list Step) s (main : S) :
  _terminate_flag s = true ->
  play args (SoundOrVideoTag filename) on_done (Wait TimeoutExpired :: rest)
       s main
  = Some (mk false None
             (effects s ++ [Launched (args ++ [filename]); Terminated]),
          Ok main).
Proof.
  intros Hflag. unfold play, _play, _wait_for_termination. simpl.
  rewrite Hflag. player_fields. by rewrite <- app_assoc.
Qed.

(** [MpvManager.stop] leaves the stored callback in place, so an idle
    report that follows it has the effect it has without the stop. *)
Lemma mpv_stop_keeps_on_done {S : Type} (m : MpvManager.t S) (main : S) :
  MpvManager.on_idle (MpvManager.stop m) main = MpvManager.on_idle m main.
Proof. reflexivity. Qed.

(** C2 (the code departs from the claim). Two runs in which [stop()] is
    called before the play has completed and [on_done], here the successor
    function on a counter that starts at 0, is applied all the same.
    [SimpleProcessPlayer]: the flag is raised while the process runs and
    the process exits during the wait in progress, so the loop returns
    without looking at the flag.  [MpvManager]: [stop] sends the stop
    command and keeps the callback, which the next idle report calls. *)
Theorem stop_before_completion_still_calls_on_done :
  play ["mplayer"] (SoundOrVideoTag "a.mp3") Nat.succ
       [Wait TimeoutExpired; StopRequested; Wait (Exited 0)] init 0%nat
  = Some (mk false None [Launched ["mplayer"; "a.mp3"]], Ok 1%nat) /\
  exists m : MpvManager.t nat,
    MpvManager.play "/media" (SoundOrVideoTag "a.mp3") Nat.succ
                    MpvManager.init = Some m /\
    MpvManager.commands (MpvManager.stop m)
    = [MpvManager.Loadfile "/media/a.mp3"; MpvManager.Stop] /\
    MpvManager.on_idle (MpvManager.stop m) 0%nat = 1%nat.
Proof.
  split; [reflexivity|]. eexists. split; [reflexivity|].
  split; reflexivity.
Qed.

(** *** The bounded wait of [stop] *)

(** On a clock that advances, the reading at test [i] is at least [i]
    times [progress] past the first reading. *)
Lemma reading_lower (clock : Clock) :
  advances clock ->
  forall i, t0 clock + Z.of_nat i * progress clock <= reading clock i.
Proof.
  intros (_ & _ & H0 & Hstep) i. induction i as [|i IH].
  - simpl. lia.
  - specialize (Hstep i). rewrite Nat2Z.inj_succ, Z.mul_succ_l. lia.
Qed.

Lemma reading_monotone (clock : Clock) :
  advances clock ->
  forall i j, (i <= j)%nat -> reading clock i <= reading clock j.
Proof.
  intros (_ & Hp & _ & Hstep) i j Hij. induction Hij as [|j Hij IH]; [lia|].
  specialize (Hstep j). lia.
Qed.

Lemma max_sleeps_over (clock : Clock) :
  advances clock ->
  CEILING clock < Z.of_nat (max_sleeps clock) * progress clock.
Proof.
  intros (Hhz & Hp & _). unfold max_sleeps.
  assert (0 < CEILING clock) by (unfold CEILING; lia).
  rewrite Nat2Z.inj_succ, Z2Nat.id by (apply Z.div_pos; lia).
  pose proof (Z.div_mod (CEILING clock) (progress clock)).
  pose proof (Z.mod_pos_bound (CEILING clock) (progress clock)).
  nia.
Qed.

(** The loop of [stop] on a clock that advances: it ends, at the first
    test that finds the flag cleared or the ceiling reached. *)
Lemma stop_loop_bounded (others : nat -> t -> t) (clock : Clock) :
  advances clock ->
  forall (d fuel i : nat) s,
    (i + d = max_sleeps clock)%nat -> (d <= fuel)%nat ->
    exists n : nat,
      (i + n <= max_sleeps clock)%nat /\
      stop_loop fuel others clock i s
      = Some (after_sleeps others i n s, (i + n)%nat) /\
      (forall j, (j < n)%nat ->
         _terminate_flag (after_sleeps others i j s) = true /\
         reading clock (i + j) - t0 clock < CEILING clock) /\
      (_terminate_flag (after_sleeps others i n s) = false
       \/ CEILING clock <= reading clock (i + n) - t0 clock).
Proof.
  intros Hadv. induction d as [|d IH]; intros fuel i s Hi Hfuel.
  - exists 0%nat. rewrite Nat.add_0_r in *. subst i.
    pose proof (reading_lower clock Hadv (max_sleeps clock)) as Hlow.
    pose proof (max_sleeps_over clock Hadv) as Hover.
    assert (Hge : CEILING clock
                  <= reading clock (max_sleeps clock) - t0 clock) by lia.
    split; [lia|]. split.
    + destruct fuel; cbn [stop_loop after_sleeps];
        rewrite (proj2 (Z.ltb_ge _ _) Hge), andb_false_r; done.
    + split; [lia|]. by right.
  - destruct (_terminate_flag s) eqn:Hflag.
    + destruct (Z.ltb_spec (reading clock i - t0 clock) (CEILING clock))
        as [Hlt|Hge].
      * destruct fuel as [|fuel]; [lia|].
        destruct (IH fuel (S i) (others i s)) as (n & Hn & Hloop & Hup & Hend);
          [lia|lia|].
        exists (S n). split; [lia|]. split.
        { cbn [stop_loop after_sleeps]. rewrite Hflag.
          rewrite (proj2 (Z.ltb_lt _ _) Hlt). cbn [andb]. rewrite Hloop.
          do 2 f_equal. lia. }
        split.
        { intros [|j] Hj; cbn [after_sleeps].
          - rewrite Nat.add_0_r. done.
          - replace (i + S j)%nat with (S i + j)%nat by lia. apply Hup. lia. }
        cbn [after_sleeps].
        replace (i + S n)%nat with (S i + n)%nat by lia. exact Hend.
      * exists 0%nat. rewrite Nat.add_0_r. split; [lia|]. split.
        { destruct fuel; cbn [stop_loop after_sleeps];
            rewrite (proj2 (Z.ltb_ge _ _) Hge), andb_false_r; done. }
        split; [lia|]. by right.
    + exists 0%nat. rewrite Nat.add_0_r. split; [lia|]. split.
      * destruct fuel; cbn [stop_loop after_sleeps]; by rewrite Hflag.
      * split; [lia|]. by left.
Qed.

(** C4, as amended.  Every call of [stop] on a clock that advances
    returns, whatever the other execution contexts do meanwhile, and in
    particular if the flag is never cleared.  The flag is raised first;
    the caller then sleeps [n] times, having found before each sleep the
    flag raised and less than 10 seconds elapsed, and regains control at
    the first test at which the flag is cleared or 10 seconds have elapsed.
    So it may regain control after the 10 second mark, but by less than
    the time that its last sleep took; and the sleeps before the last add
    up to less than 10 seconds.  More fuel than the clock allows sleeps
    changes nothing. *)
Theorem stop_returns_less_than_one_sleep_after_ceiling :
  forall (others : nat -> t -> t) (clock : Clock) (s : t),
    advances clock ->
    exists n : nat,
      let raised := mk true (_process s) (effects s) in
      stop others clock s = Some (after_sleeps others 0 n raised, n) /\
      (forall j, (j < n)%nat ->
         _terminate_flag (after_sleeps others 0 j raised) = true /\
         reading clock j - t0 clock < CEILING clock) /\
      (_terminate_flag (after_sleeps others 0 n raised) = false
       \/ CEILING clock <= reading clock n - t0 clock) /\
      (forall m, n = S m ->
         reading clock n - t0 clock
         < CEILING clock + (reading clock n - reading clock m)) /\
      (Z.of_nat n - 1) * progress clock < CEILING clock /\
      (forall fuel, (max_sleeps clock <= fuel)%nat ->
         stop_loop fuel others clock 0 raised = stop others clock s).
Proof.
  intros others clock s Hadv.
  destruct (stop_loop_bounded others clock Hadv (max_sleeps clock)
              (max_sleeps clock) 0 (set_terminate_flag true s))
    as (n & Hn & Hloop & Hup & Hend); [lia|lia|].
  exists n. intros raised.
  change (set_terminate_flag true s) with raised in *.
  change (0 + n)%nat with n in *.
  assert (Hstop : stop others clock s
                  = Some (after_sleeps others 0 n raised, n)) by exact Hloop.
  split; [exact Hstop|]. split; [exact Hup|]. split; [exact Hend|].
  pose proof Hadv as (Hhz & Hp & _).
  assert (Hprev : forall m, n = S m ->
            reading clock m - t0 clock < CEILING clock).
  { intros m ->. destruct (Hup m) as [_ Ht]; [lia|]. exact Ht. }
  split.
  { intros m Hm. specialize (Hprev m Hm). lia. }
  split.
  { destruct n as [|m].
    - unfold CEILING. simpl. lia.
    - specialize (Hprev m eq_refl).
      pose proof (reading_lower clock Hadv m).
      rewrite Nat2Z.inj_succ. lia. }
  intros fuel Hfuel. rewrite Hstop.
  destruct (stop_loop_bounded others clock Hadv (max_sleeps clock) fuel 0
              raised) as (m & Hm & Hloop' & Hup' & Hend'); [lia|lia|].
  change (0 + m)%nat with m in *. rewrite Hloop'.
  assert (m = n) as ->; [|done].
  destruct (Nat.lt_trichotomy m n) as [Hlt|[Heq|Hgt]]; [|done|].
  - destruct (Hup m Hlt) as [Hf Ht]. cbn [Nat.add] in Ht.
    destruct Hend' as [Hend'|Hend']; [congruence|lia].
  - destruct (Hup' n Hgt) as [Hf Ht]. cbn [Nat.add] in Ht.
    destruct Hend as [Hend|Hend]; [congruence|lia].
Qed.

Lemma exact_clock_advances (start : Z) : advances (exact_clock start).
Proof.
  unfold advances, exact_clock. simpl. repeat split; try lia.
Qed.

Lemma stop_returns_witness :
  advances (exact_clock 0) /\
  exists n : nat,
    stop (fun _ s => s) (exact_clock 0) init
    = Some (after_sleeps (fun _ s => s) 0 n (mk true None []), n) /\
    (Z.of_nat n - 1) * 100 < 10000.
Proof.
  split; [apply exact_clock_advances|].
  destruct (stop_returns_less_than_one_sleep_after_ceiling
              (fun _ s => s) (exact_clock 0) init (exact_clock_advances 0))
    as (n & Hstop & _ & _ & _ & Hbound & _).
  exists n. split; [exact Hstop|exact Hbound].
Defined.

(** The claim as it was stated fails: on a clock in milliseconds on which
    every sleep takes 101 ms, on a player whose flag nobody clears, [stop]
    sleeps 100 times, and the caller regains control when 10.1 seconds have
    elapsed, not within the 10 seconds. *)
Lemma stop_can_return_after_ceiling :
  let clock := mkClock 1000 0 (fun i => 101 * Z.of_nat i) 101 in
  advances clock /\
  stop (fun _ s => s) clock init = Some (mk true None [], 100%nat) /\
  reading clock 100 - t0 clock = 10100 /\
  ~ (reading clock 100 - t0 clock <= CEILING clock).
Proof.
  intros clock. split.
  - unfold advances, clock. simpl. repeat split; try lia.
  - split; [vm_compute; reflexivity|]. split; [reflexivity|].
    vm_compute. intros H. apply H. reflexivity.
Qed.

Lemma after_sleeps_unattended (i n : nat) s :
  after_sleeps (fun _ s => s) i n s = s.
Proof. revert i. induction n as [|n IH]; intros i; [done|apply IH]. Qed.

(** When nothing else touches the player, in particular when no supervising
    loop is running, [stop] gives up only when 10 seconds have elapsed, and
    leaves the flag raised. *)
Lemma stop_unattended_leaves_flag (clock : Clock) s :
  advances clock ->
  exists n : nat,
    stop (fun _ s => s) clock s = Some (set_terminate_flag true s, n) /\
    CEILING clock <= reading clock n - t0 clock.
Proof.
  intros Hadv.
  destruct (stop_loop_bounded (fun _ s => s) clock Hadv (max_sleeps clock)
              (max_sleeps clock) 0 (set_terminate_flag true s))
    as (n & Hn & Hloop & _ & Hend); [lia|lia|].
  rewrite after_sleeps_unattended in Hloop, Hend.
  destruct Hend as [Hend|Hend]; [discriminate Hend|].
  exists n. split; [exact Hloop|exact Hend].
Qed.

(** A player whose process never exits and whose flag nobody clears, on
    the exact clock: the caller is back after 100 sleeps. *)
Example stop_never_confirmed :
  stop (fun _ s => s) (exact_clock 5000)
       (mk false (Some ["mplayer"; "a.mp3"]) [])
  = Some (mk true (Some ["mplayer"; "a.mp3"]) [], 100%nat).
Proof. vm_compute. reflexivity. Qed.

(** C5 (the code departs from the claim). [stop()] on a player that plays
    nothing: no supervising loop runs, the flag is still raised when the
    caller gives up, after 100 sleeps of 100 ms on the exact clock and
    after 10 seconds or more on every clock that advances, and it stays
    raised.  The next play of that player, during which nobody asks for a
    stop, finds it at its first wait that times out: the process is
    terminated and [on_done], the successor function on a counter that
    starts at 0, is not applied. *)
Theorem stop_while_idle_cancels_next_play :
  stop (fun _ s => s) (exact_clock 0) init
  = Some (mk true None [], 100%nat) /\
  (forall clock, advances clock ->
     exists n : nat,
       stop (fun _ s => s) clock init = Some (mk true None [], n) /\
       CEILING clock <= reading clock n - t0 clock) /\
  play ["mplayer"] (SoundOrVideoTag "a.mp3") Nat.succ
       [Wait TimeoutExpired; Wait TimeoutExpired; Wait (Exited 0)]
       (mk true None []) 0%nat
  = Some (mk false None [Launched ["mplayer"; "a.mp3"]; Terminated],
          Ok 0%nat).
Proof.
  split; [vm_compute; reflexivity|]. split; [|vm_compute; reflexivity].
  intros clock Hadv. exact (stop_unattended_leaves_flag clock init Hadv).
Qed.

End ProcessPlayerFacts.

(** ** The shared argument template of the mplayer players *)

Section ClassAttrFacts.
Import ClassAttrs.

(** Constructing a slave-mode player in a store where [self.args] resolves
    to the list at [a]: the list at [a] gains ["-slave"], and no binding
    of any class or instance changes. *)
Lemma new_slave_appends_in_place (st : Store) (a : nat) (l : list string) :
  args_ref st (mkInstance SimpleMplayerSlaveModePlayer None) = Some a ->
  heap st !! a = Some l ->
  new_SimpleMplayerSlaveModePlayer st
  = Some (mkStore (<[a := l ++ ["-slave"]]> (heap st)) (class_args st),
          mkInstance SimpleMplayerSlaveModePlayer None).
Proof.
  intros Href Hl. unfold new_SimpleMplayerSlaveModePlayer.
  by rewrite Href, Hl.
Qed.

(** Once the module is loaded, an instance of either mplayer class that
    binds no [args] of its own reads the list of [SimpleMplayerPlayer]. *)
Lemma mplayer_instances_share_args (exe : string) (isWin : bool)
    (h : gmap nat (list string)) (self : Instance) :
  cls self = SimpleMplayerPlayer \/ cls self = SimpleMplayerSlaveModePlayer ->
  own_args self = None ->
  args_ref (mkStore h (class_args (module_loaded exe isWin))) self
  = Some 1%nat.
Proof.
  intros Hcls Hown. unfold args_ref. rewrite Hown.
  destruct Hcls as [-> | ->]; reflexivity.
Qed.

(** C9. From the store of the freshly loaded module, constructing two
    slave-mode players succeeds and rebinds nothing, but the list bound
    to [args] in the class [SimpleMplayerPlayer], which held the template
    [base], holds [base] followed by ["-slave"] after the first
    construction and by ["-slave"; "-slave"] after the second; and every
    instance of [SimpleMplayerPlayer] or [SimpleMplayerSlaveModePlayer]
    without an [args] of its own, the plain player included, then starts
    its process with [base], the two ["-slave"] and the file name. *)
Theorem slave_mode_constructor_mutates_shared_args :
  forall (exe : string) (isWin : bool),
    let st0 := module_loaded exe isWin in
    let base := mplayer_args exe isWin in
    exists (st1 st2 : Store) (slave1 slave2 : Instance),
      new_SimpleMplayerSlaveModePlayer st0 = Some (st1, slave1) /\
      new_SimpleMplayerSlaveModePlayer st1 = Some (st2, slave2) /\
      class_args st2 = class_args st0 /\
      own_args slave1 = None /\ own_args slave2 = None /\
      SimpleMplayerPlayer_args st0 = Some base /\
      SimpleMplayerPlayer_args st1 = Some (base ++ ["-slave"]) /\
      SimpleMplayerPlayer_args st2 = Some (base ++ ["-slave"; "-slave"]) /\
      (forall (self : Instance) (filename : string),
          cls self = SimpleMplayerPlayer
          \/ cls self = SimpleMplayerSlaveModePlayer ->
          own_args self = None ->
          popen_command st2 self filename
          = Some (base ++ ["-slave"; "-slave"] ++ [filename])) /\
      popen_command st2 (new_SimpleMplayerPlayer st2).2 "a.mp3"
      = Some (base ++ ["-slave"; "-slave"; "a.mp3"]).
Proof.
  intros exe isWin st0 base.
  set (self := mkInstance SimpleMplayerSlaveModePlayer None).
  set (h1 := <[1%nat := base ++ ["-slave"]]> (heap st0)).
  set (h2 := <[1%nat := (base ++ ["-slave"]) ++ ["-slave"]]> h1).
  exists (mkStore h1 (class_args st0)), (mkStore h2 (class_args st0)),
    self, self.
  assert (H0 : heap st0 !! 1%nat = Some base) by apply lookup_insert_eq.
  assert (H1 : h1 !! 1%nat = Some (base ++ ["-slave"]))
    by apply lookup_insert_eq.
  assert (H2 : h2 !! 1%nat = Some (base ++ ["-slave"; "-slave"])).
  { unfold h2. rewrite lookup_insert_eq. by rewrite <- app_assoc. }
  assert (Href : forall h,
             args_ref (mkStore h (class_args st0)) self = Some 1%nat).
  { intros h. apply mplayer_instances_share_args; [by right|done]. }
  split.
  { apply (new_slave_appends_in_place st0 1%nat base); [apply Href|done]. }
  split.
  { apply (new_slave_appends_in_place (mkStore h1 (class_args st0)) 1%nat
             (base ++ ["-slave"])); [apply Href|done]. }
  do 3 (split; [reflexivity|]).
  split; [exact H0|]. split; [exact H1|]. split; [exact H2|].
  assert (Hall : forall (o : Instance) (filename : string),
             cls o = SimpleMplayerPlayer
             \/ cls o = SimpleMplayerSlaveModePlayer ->
             own_args o = None ->
             popen_command (mkStore h2 (class_args st0)) o filename
             = Some (base ++ ["-slave"; "-slave"] ++ [filename])).
  { intros o filename Hcls Hown. unfold popen_command, get_args.
    pose proof (mplayer_instances_share_args exe isWin h2 o Hcls Hown)
      as Hr.
    fold st0 in Hr. rewrite Hr. simpl heap. rewrite H2. by rewrite <- app_assoc. }
  split; [exact Hall|].
  apply Hall; [by left|reflexivity].
Qed.

(** On a system that is not Windows, with the executable found by name. *)
Example two_slave_players_then_plain_player :
  let st0 := module_loaded "mplayer" false in
  match new_SimpleMplayerSlaveModePlayer st0 with
  | Some (st1, _) =>
      match new_SimpleMplayerSlaveModePlayer st1 with
      | Some (st2, _) =>
          let (st3, plain) := new_SimpleMplayerPlayer st2 in
          popen_command st3 plain "a.mp3"
      | None => None
      end
  | None => None
  end
  = Some ["mplayer"; "-really-quiet"; "-noautosub"; "-slave"; "-slave";
          "a.mp3"].
Proof. vm_compute. reflexivity. Qed.

End ClassAttrFacts.

(** ** Further properties of the scheduler *)

Section SchedulerRuns.
Import AVPlayer Dispatch.

Implicit Types (s : t) (q : list AVTag).

Lemma plays_app evs1 evs2 : plays (evs1 ++ evs2) = plays evs1 ++ plays evs2.
Proof. unfold plays. apply omap_app. Qed.

(** What one dispatch does when the scheduler is idle. *)
Lemma play_next_if_idle_idle s :
  current_player s = None ->
  let s' := _play_next_if_idle s in
  plays (events s') =
    plays (events s) ++ omap (dispatch_of (players s)) (take 1 (_enqueued s)) /\
  _enqueued s' = drop 1 (_enqueued s) /\
  players s' = players s /\
  interrupt_current_audio s' = interrupt_current_audio s /\
  current_player s' = head (_enqueued s) ≫= _best_player_for_tag (players s).
Proof.
  intros Hc. unfold _play_next_if_idle, _pop_next, _play. rewrite Hc.
  destruct (_enqueued s) as [|tag rest] eqn:Hq; simpl.
  - rewrite Hq, Hc, app_nil_r. done.
  - unfold dispatch_of.
    destruct (_best_player_for_tag (players s) tag) as [p|]; simpl;
      rewrite !plays_app; simpl; rewrite ?app_nil_r; done.
Qed.

(** What one completion callback does. *)
Lemma on_play_finished_pops s :
  let s' := _on_play_finished s in
  plays (events s') =
    plays (events s) ++ omap (dispatch_of (players s)) (take 1 (_enqueued s)) /\
  _enqueued s' = drop 1 (_enqueued s) /\
  players s' = players s /\
  interrupt_current_audio s' = interrupt_current_audio s /\
  current_player s' = head (_enqueued s) ≫= _best_player_for_tag (players s).
Proof.
  unfold _on_play_finished.
  destruct (play_next_if_idle_idle
              (emit EvDidPlay (set_current_player None s)) eq_refl)
    as (Hp & Hq & Hr & Hi & Hc).
  simpl in *. rewrite plays_app in Hp. simpl in Hp.
  rewrite app_nil_r in Hp. done.
Qed.

Lemma run_completions s k :
  let s' := run (repeat OpPlayFinished k) s in
  plays (events s') =
    plays (events s) ++ omap (dispatch_of (players s)) (take k (_enqueued s)) /\
  _enqueued s' = drop k (_enqueued s) /\
  players s' = players s.
Proof.
  revert s. induction k as [|k IH]; intros s; simpl.
  - rewrite ?take_0, ?drop_0, app_nil_r. done.
  - destruct (on_play_finished_pops s) as (Hp & Hq & Hr & _ & _).
    destruct (IH (_on_play_finished s)) as (Hp' & Hq' & Hr').
    change (foldl step (_on_play_finished s) (repeat OpPlayFinished k))
      with (run (repeat OpPlayFinished k) (_on_play_finished s)).
    rewrite Hp', Hq', Hr', Hp, Hq, Hr. split; [|split; [|done]].
    + rewrite <- app_assoc, <- omap_app. do 2 f_equal.
      destruct (_enqueued s) as [|tag rest]; simpl.
      * by rewrite take_nil.
      * by rewrite drop_0.
    + destruct (_enqueued s) as [|tag rest]; simpl.
      * by rewrite drop_nil.
      * by rewrite drop_0.
Qed.

Lemma run_completions_current s k :
  current_player (run (repeat OpPlayFinished (S k)) s)
  = _enqueued s !! k ≫= _best_player_for_tag (players s).
Proof.
  revert s. induction k as [|k IH]; intros s.
  - simpl. destruct (on_play_finished_pops s) as (_ & _ & _ & _ & Hc).
    rewrite Hc. by destruct (_enqueued s).
  - change (run (repeat OpPlayFinished (S (S k))) s)
      with (run (repeat OpPlayFinished (S k)) (_on_play_finished s)).
    rewrite IH.
    destruct (on_play_finished_pops s) as (_ & Hq & Hr & _ & _).
    rewrite Hq, Hr. by destruct (_enqueued s).
Qed.

(** X1. Completion callbacks drain the queue in FIFO order: after [k]
    callbacks, from any state, the plays added to the trace are those of the
    first [k] queued tags, in queue order, each to the player selected for
    it (a tag that no player ranks is dropped without a play), the queue
    holds the remaining tags, and after one callback more the active player
    is the one selected for the tag that was at index [k]. *)
Theorem completions_drain_queue_in_order :
  forall (s : t) (k : nat),
    let s' := run (repeat OpPlayFinished k) s in
    plays (events s') =
      plays (events s)
        ++ omap (dispatch_of (players s)) (take k (_enqueued s)) /\
    _enqueued s' = drop k (_enqueued s) /\
    current_player (_on_play_finished s')
    = _enqueued s !! k ≫= _best_player_for_tag (players s).
Proof.
  intros s k s'. destruct (run_completions s k) as (Hp & Hq & Hr).
  split; [exact Hp|]. split; [exact Hq|].
  destruct (on_play_finished_pops s') as (_ & _ & _ & _ & Hc).
  rewrite Hc. fold s' in Hq, Hr. rewrite Hq, Hr.
  by rewrite head_lookup, lookup_drop, Nat.add_0_r.
Qed.

(** The first dispatch of a batch and the callbacks that follow it. *)
Lemma stop_if_playing_plays s :
  plays (events (_stop_if_playing s)) = plays (events s) /\
  events (_stop_if_playing s) = events s ++ stop_events s /\
  _enqueued (_stop_if_playing s) = _enqueued s /\
  players (_stop_if_playing s) = players s /\
  interrupt_current_audio (_stop_if_playing s) = interrupt_current_audio s /\
  current_player (_stop_if_playing s) = None.
Proof.
  unfold _stop_if_playing, stop_events.
  destruct (current_player s) as [p|]; simpl.
  - rewrite plays_app. simpl. rewrite app_nil_r. done.
  - rewrite app_nil_r. done.
Qed.

Lemma play_tags_from_idle s tags :
  interrupt_current_audio s = true \/ current_player s = None ->
  let s' := play_tags tags s in
  plays (events s') =
    plays (events s) ++ omap (dispatch_of (players s)) (take 1 tags) /\
  _enqueued s' = drop 1 tags /\
  players s' = players s /\
  current_player s' = head tags ≫= _best_player_for_tag (players s).
Proof.
  intros Hidle. unfold play_tags. simpl.
  destruct (interrupt_current_audio s) eqn:Hi.
  - destruct (stop_if_playing_plays (set_enqueued tags s))
      as (Hp & _ & Hq & Hr & _ & Hc).
    destruct (play_next_if_idle_idle _ Hc) as (Hp' & Hq' & Hr' & _ & Hc').
    rewrite Hp', Hq', Hr', Hc', Hp, Hq, Hr. done.
  - destruct Hidle as [Hi'|Hc]; [discriminate Hi'|].
    destruct (play_next_if_idle_idle (set_enqueued tags s) Hc)
      as (Hp' & Hq' & Hr' & _ & Hc').
    rewrite Hp', Hq', Hr', Hc'. done.
Qed.

(** X2. A batch handed to [play_tags], when the interrupt policy is
    enabled or the scheduler is idle, replaces whatever was queued and is
    played in order: after [k] completion callbacks the active player is the
    one selected for the tag at index [k] of the batch (none if no player
    ranks it or the batch is exhausted), the plays added to the trace are
    those of the first [k + 1] tags in order, and the queue holds the tags
    after them. *)
Theorem play_tags_plays_batch_in_order :
  forall (s : t) (tags : list AVTag) (k : nat),
    interrupt_current_audio s = true \/ current_player s = None ->
    let s' := run (repeat OpPlayFinished k) (play_tags tags s) in
    current_player s' = tags !! k ≫= _best_player_for_tag (players s) /\
    plays (events s') =
      plays (events s) ++ omap (dispatch_of (players s)) (take (S k) tags) /\
    _enqueued s' = drop (S k) tags.
Proof.
  intros s tags k Hidle s'.
  destruct (play_tags_from_idle s tags Hidle) as (Hp & Hq & Hr & Hc).
  destruct (run_completions (play_tags tags s) k) as (Hp' & Hq' & _).
  fold s' in Hp', Hq'. rewrite Hp', Hq', Hp, Hq, Hr. split; [|split].
  - destruct k as [|k].
    + subst s'. simpl. rewrite Hc. by destruct tags.
    + subst s'. rewrite run_completions_current, Hq, Hr. by destruct tags.
  - rewrite <- app_assoc, <- omap_app. do 2 f_equal.
    destruct tags as [|tag rest]; simpl.
    + by rewrite take_nil.
    + by rewrite drop_0.
  - destruct tags as [|tag rest]; simpl.
    + by rewrite drop_nil.
    + by rewrite drop_0.
Qed.

Lemma play_tags_batch_witness :
  let mplayer := mkPlayer 0 (SoundOrVideoPlayer_rank_for_tag 0) in
  let a := SoundOrVideoTag "a.mp3" in
  let b := SoundOrVideoTag "b.mp3" in
  let s' := run [OpPlayFinished] (play_tags [a; b] (init [mplayer] true)) in
  current_player s' = Some mplayer /\
  plays (events s') = [(mplayer, a); (mplayer, b)] /\
  _enqueued s' = [].
Proof.
  intros mplayer a b.
  exact (play_tags_plays_batch_in_order (init [mplayer] true) [a; b] 1
           (or_introl eq_refl)).
Defined.

(** *** Who gets to play *)

Lemma best_player_is_latest_highest ps tag p :
  _best_player_for_tag ps tag = Some p -> latest_highest ps tag p.
Proof.
  unfold _best_player_for_tag. rewrite last_sort_by_rank.
  destruct (latest_max (ranked_players ps tag)) as [[r q]|] eqn:Hm; [|done].
  intros [= <-]. destruct (latest_max_ranked_players _ _ _ _ Hm)
    as (bf & af & H). by exists bf, af, r.
Qed.

Lemma play_next_if_idle_plays s :
  exists l,
    plays (events (_play_next_if_idle s))
    = plays (events s) ++ omap (dispatch_of (players s)) l /\
    players (_play_next_if_idle s) = players s.
Proof.
  destruct (current_player s) as [p|] eqn:Hc.
  - exists []. unfold _play_next_if_idle. rewrite Hc. simpl.
    by rewrite app_nil_r.
  - destruct (play_next_if_idle_idle s Hc) as (Hp & _ & Hr & _).
    by exists (take 1 (_enqueued s)).
Qed.

Lemma step_plays s o :
  exists l,
    plays (events (step s o))
    = plays (events s) ++ omap (dispatch_of (players s)) l /\
    players (step s o) = players s.
Proof.
  destruct o as [tags|tags|filename| |]; simpl.
  - unfold play_tags. simpl.
    destruct (interrupt_current_audio s).
    + destruct (stop_if_playing_plays (set_enqueued tags s))
        as (Hp & _ & _ & Hr & _).
      destruct (play_next_if_idle_plays (_stop_if_playing (set_enqueued tags s)))
        as (l & Hp' & Hr').
      exists l. by rewrite Hp', Hr', Hp, Hr.
    + apply (play_next_if_idle_plays (set_enqueued tags s)).
  - apply (play_next_if_idle_plays (set_enqueued _ s)).
  - apply (play_next_if_idle_plays (set_enqueued _ s)).
  - destruct (on_play_finished_pops s) as (Hp & _ & Hr & _). eauto.
  - destruct (stop_if_playing_plays (set_enqueued [] s))
      as (Hp & _ & _ & Hr & _).
    exists []. simpl. by rewrite app_nil_r.
Qed.

Lemma run_plays ops s :
  exists l,
    plays (events (run ops s))
    = plays (events s) ++ omap (dispatch_of (players s)) l /\
    players (run ops s) = players s.
Proof.
  revert s. induction ops as [|o ops IH]; intros s.
  - exists []. simpl. by rewrite app_nil_r.
  - destruct (step_plays s o) as (l1 & Hp1 & Hr1).
    destruct (IH (step s o)) as (l2 & Hp2 & Hr2).
    exists (l1 ++ l2). change (run (o :: ops) s) with (run ops (step s o)).
    rewrite Hp2, Hr2, Hp1, Hr1, omap_app, app_assoc. done.
Qed.

(** X3. Whatever operations reach a scheduler, it never changes its
    registry, and every [play] it issues goes to the player that the
    selection function returns for that tag: a registered player that ranks
    the tag, of highest rank and registered last among those. *)
Theorem plays_go_to_selected_registered_player :
  forall (registry : list Player) (interrupt : bool) (ops : list Op),
    let s := run ops (init registry interrupt) in
    players s = registry /\
    Forall (fun play : Player * AVTag =>
              _best_player_for_tag registry play.2 = Some play.1 /\
              play.1 ∈ registry /\
              is_Some (rank_for_tag play.1 play.2) /\
              latest_highest registry play.2 play.1)
           (plays (events s)).
Proof.
  intros registry interrupt ops s.
  destruct (run_plays ops (init registry interrupt)) as (l & Hp & Hr).
  fold s in Hp, Hr. simpl in Hp, Hr. split; [exact Hr|].
  rewrite Hp. apply Forall_forall. intros [p tag] Hin.
  apply list_elem_of_omap in Hin as (tag' & _ & Hd). unfold dispatch_of in Hd.
  destruct (_best_player_for_tag registry tag') as [q|] eqn:Hbest;
    [|discriminate Hd].
  injection Hd as -> ->. simpl. split; [exact Hbest|].
  pose proof (best_player_is_latest_highest _ _ _ Hbest) as Hlh.
  destruct Hlh as (bf & af & r & Hreg & Hrank & Hb & Ha).
  split; [|split; [by exists r|by exists bf, af, r]].
  rewrite Hreg. apply elem_of_app. right. apply list_elem_of_here.
Qed.

(** *** Notifications *)

Lemma last_from_snoc prev evs e : last_from prev (evs ++ [e]) = Some e.
Proof. unfold last_from. by rewrite last_snoc. Qed.

Lemma announced_from_snoc prev evs e :
  announced_from prev (evs ++ [e]) <->
  announced_from prev evs /\
  match e with
  | EvPlay _ tag => last_from prev evs = Some (EvWillPlay tag)
  | _ => True
  end.
Proof.
  revert prev. induction evs as [|a evs IH]; intros prev.
  - unfold last_from. simpl. destruct e; tauto.
  - assert (Hlast : forall pv, last_from (Some a) evs = last_from pv (a :: evs)).
    { intros pv. unfold last_from. destruct evs as [|b evs]; [done|].
      change (last (a :: b :: evs)) with (last (b :: evs)).
      by destruct (last (b :: evs)) eqn:Hl;
        [|apply last_None in Hl]. }
    rewrite <- (Hlast prev).
    destruct a; simpl; rewrite IH; tauto.
Qed.

Lemma announced_emit s e :
  announced (events s) ->
  match e with
  | EvPlay _ tag => last_from None (events s) = Some (EvWillPlay tag)
  | _ => True
  end ->
  announced (events (emit e s)).
Proof. intros Ha He. simpl. by apply announced_from_snoc. Qed.

Lemma announced_play_next_if_idle s :
  announced (events s) -> announced (events (_play_next_if_idle s)).
Proof.
  intros Ha. unfold _play_next_if_idle, _pop_next, _play.
  destruct (current_player s); [done|].
  destruct (_enqueued s) as [|tag rest]; [done|]. simpl.
  destruct (_best_player_for_tag (players s) tag) as [p|]; simpl.
  - apply announced_from_snoc. split; [|apply last_from_snoc].
    by apply announced_from_snoc.
  - by apply announced_from_snoc.
Qed.

Lemma announced_stop_if_playing s :
  announced (events s) -> announced (events (_stop_if_playing s)).
Proof.
  intros Ha. unfold _stop_if_playing.
  destruct (current_player s); simpl; [|done].
  by apply announced_from_snoc.
Qed.

Lemma announced_step s o :
  announced (events s) -> announced (events (step s o)).
Proof.
  intros Ha. destruct o as [tags|tags|filename| |]; simpl.
  - unfold play_tags. simpl. apply announced_play_next_if_idle.
    destruct (interrupt_current_audio s); [|done].
    by apply (announced_stop_if_playing (set_enqueued tags s)).
  - by apply (announced_play_next_if_idle (set_enqueued _ s)).
  - by apply (announced_play_next_if_idle (set_enqueued _ s)).
  - unfold _on_play_finished. apply announced_play_next_if_idle. simpl.
    by apply announced_from_snoc.
  - by apply (announced_stop_if_playing (set_enqueued [] s)).
Qed.

(** X4. In the trace of every run of the scheduler, each [play] comes
    directly after the "will play" notification for the same tag: nothing,
    not even a stop, is issued between the two. *)
Theorem every_play_is_announced :
  forall (registry : list Player) (interrupt : bool) (ops : list Op),
    announced (events (run ops (init registry interrupt))).
Proof.
  intros registry interrupt ops.
  assert (H : forall s, announced (events s) -> announced (events (run ops s))).
  { induction ops as [|o ops IH]; intros s Ha; [done|].
    simpl. by apply IH, announced_step. }
  by apply H.
Qed.

(** *** Priority insertion, stopping and shutting down *)

Lemma set_enqueued_same s : set_enqueued (_enqueued s) s = s.
Proof. by destruct s. Qed.

(** X5. [insert_file] puts its tag in front of everything queued.  On an
    idle scheduler the tag is dispatched at once and the queue is left as
    it was, even when it is not empty.  While a player is active the tag
    becomes the head of the queue and nothing else changes; the next
    completion callback then dispatches it, ahead of the tags queued
    before it. *)
Theorem insert_file_jumps_the_queue :
  forall (s : t) (filename : string),
    let tag := SoundOrVideoTag filename in
    (current_player s = None -> insert_file filename s = _play tag s) /\
    (forall p, current_player s = Some p ->
       insert_file filename s = set_enqueued (tag :: _enqueued s) s /\
       let s' := _on_play_finished (insert_file filename s) in
       plays (events s')
       = plays (events s) ++ omap (dispatch_of (players s)) [tag] /\
       current_player s' = _best_player_for_tag (players s) tag /\
       _enqueued s' = _enqueued s).
Proof.
  intros s filename tag. split.
  - intros Hc. unfold insert_file, _play_next_if_idle, _pop_next. simpl.
    by rewrite Hc.
  - intros p Hc.
    assert (Hx : insert_file filename s = set_enqueued (tag :: _enqueued s) s).
    { unfold insert_file, _play_next_if_idle. simpl. by rewrite Hc. }
    split; [exact Hx|]. rewrite Hx.
    destruct (on_play_finished_pops (set_enqueued (tag :: _enqueued s) s))
      as (Hp & Hq & _ & _ & Hc').
    simpl in *. rewrite drop_0 in Hq. done.
Qed.

Lemma insert_file_witness :
  let mplayer := mkPlayer 0 (SoundOrVideoPlayer_rank_for_tag 0) in
  let a := SoundOrVideoTag "a.mp3" in
  let b := SoundOrVideoTag "b.mp3" in
  let s := play_tags [a; b] (init [mplayer] true) in
  insert_file "c.mp3" s = set_enqueued [SoundOrVideoTag "c.mp3"; b] s /\
  plays (events (_on_play_finished (insert_file "c.mp3" s)))
  = [(mplayer, a); (mplayer, SoundOrVideoTag "c.mp3")] /\
  insert_file "c.mp3" (init [mplayer] true)
  = _play (SoundOrVideoTag "c.mp3") (init [mplayer] true).
Proof.
  intros mplayer a b s.
  destruct (insert_file_jumps_the_queue s "c.mp3") as [_ Hactive].
  destruct (Hactive mplayer eq_refl) as (Hx & Hp & _).
  destruct (insert_file_jumps_the_queue (init [mplayer] true) "c.mp3")
    as [Hidle _].
  split; [exact Hx|]. split; [exact Hp|exact (Hidle eq_refl)].
Defined.

(** X6. [stop_and_clear_queue] stops the active player, if there is one,
    and issues nothing else; it is idempotent; and in the state it leaves,
    pausing, seeking and extending by nothing change nothing, while a
    completion callback that still arrives for the stopped play only emits
    the "did play" notification: nothing is started. *)
Theorem stop_and_clear_queue_settles :
  forall (s : t),
    let s1 := stop_and_clear_queue s in
    events s1 = events s ++ stop_events s /\
    _enqueued s1 = [] /\
    current_player s1 = None /\
    stop_and_clear_queue s1 = s1 /\
    toggle_pause s1 = s1 /\
    (forall secs, seek_relative secs s1 = s1) /\
    extend_and_play [] s1 = s1 /\
    _on_play_finished s1 = emit EvDidPlay s1.
Proof.
  intros s. unfold stop_and_clear_queue, _stop_if_playing, stop_events. simpl.
  destruct (current_player s) as [p|]; simpl.
  - repeat split; reflexivity.
  - rewrite app_nil_r. repeat split; reflexivity.
Qed.

Lemma shutdown_players_events (ps : list Player) s :
  let s' := foldl (fun acc p => emit (EvShutdown p) acc) s ps in
  events s' = events s ++ map EvShutdown ps /\
  _enqueued s' = _enqueued s /\
  current_player s' = current_player s /\
  players s' = players s.
Proof.
  revert s. induction ps as [|p ps IH]; intros s; simpl.
  - by rewrite app_nil_r.
  - destruct (IH (emit (EvShutdown p) s)) as (He & Hq & Hc & Hr).
    rewrite He, Hq, Hc, Hr. simpl. by rewrite <- app_assoc.
Qed.

(** X7. [shutdown] empties the queue, stops the active player if there is
    one, and then calls [shutdown] on every registered player, once each
    and in registry order, whether or not it ever played; it issues
    nothing else and leaves the scheduler idle with its registry intact. *)
Theorem shutdown_stops_then_shuts_down_every_player :
  forall (s : t),
    let s' := shutdown s in
    events s' = events s ++ stop_events s ++ map EvShutdown (players s) /\
    _enqueued s' = [] /\
    current_player s' = None /\
    players s' = players s.
Proof.
  intros s. unfold shutdown.
  destruct (shutdown_players_events (players s) (stop_and_clear_queue s))
    as (He & Hq & Hc & Hr).
  rewrite He, Hq, Hc, Hr.
  unfold stop_and_clear_queue.
  destruct (stop_if_playing_plays (set_enqueued [] s))
    as (_ & He' & Hq' & Hr' & _ & Hc').
  rewrite He', Hq', Hc', Hr'. unfold stop_events. simpl.
  by rewrite <- app_assoc.
Qed.

(** X8. With the interrupt policy disabled, [play_tags] on a scheduler
    whose player is active replaces the queue and does nothing else: the
    player keeps playing and nothing is stopped or started.  The tags that
    were queued are gone: the completion callbacks that follow play the new
    batch from its first tag on. *)
Theorem play_tags_without_interrupt_replaces_queue :
  forall (s : t) (tags : list AVTag) (p : Player),
    interrupt_current_audio s = false ->
    current_player s = Some p ->
    play_tags tags s = set_enqueued tags s /\
    forall k,
      let s' := run (repeat OpPlayFinished k) (play_tags tags s) in
      plays (events s')
      = plays (events s) ++ omap (dispatch_of (players s)) (take k tags) /\
      _enqueued s' = drop k tags.
Proof.
  intros s tags p Hi Hc.
  assert (Hx : play_tags tags s = set_enqueued tags s).
  { unfold play_tags. simpl. rewrite Hi.
    unfold _play_next_if_idle. simpl. by rewrite Hc. }
  split; [exact Hx|]. intros k s'. subst s'. rewrite Hx.
  destruct (run_completions (set_enqueued tags s) k) as (Hp & Hq & _).
  done.
Qed.

Lemma play_tags_without_interrupt_witness :
  let mplayer := mkPlayer 0 (SoundOrVideoPlayer_rank_for_tag 0) in
  let a := SoundOrVideoTag "a.mp3" in
  let b := SoundOrVideoTag "b.mp3" in
  let c := SoundOrVideoTag "c.mp3" in
  let s := play_tags [a; b] (init [mplayer] false) in
  play_tags [c] s = set_enqueued [c] s /\
  plays (events (run [OpPlayFinished] (play_tags [c] s)))
  = [(mplayer, a); (mplayer, c)].
Proof.
  intros mplayer a b c s.
  destruct (play_tags_without_interrupt_replaces_queue s [c] mplayer
              eq_refl eq_refl) as [Hx Hk].
  split; [exact Hx|]. exact (proj1 (Hk 1%nat)).
Defined.

(** *** Players of baseline rank *)

Lemma ranked_players_uniform (ps : list Player) (tag : AVTag) (r : Z) :
  (forall p, p ∈ ps -> rank_for_tag p tag = Some r) ->
  ranked_players ps tag = map (fun p => (r, p)) ps.
Proof.
  induction ps as [|p ps IH]; intros H; simpl; [done|].
  rewrite (H p) by apply list_elem_of_here.
  rewrite IH; [done|]. intros q Hq. apply H. by apply list_elem_of_further.
Qed.

Lemma latest_max_uniform (ps : list Player) (r : Z) :
  latest_max (map (fun p => (r, p)) ps) = (fun p => (r, p)) <$> last ps.
Proof.
  induction ps as [|p ps IH]; [done|]. simpl. rewrite IH.
  destruct ps as [|q ps]; [done|].
  change (last (p :: q :: ps)) with (last (q :: ps)).
  destruct (last (q :: ps)) as [z|] eqn:Hl; [|by apply last_None in Hl].
  simpl. by rewrite Z.ltb_irrefl.
Qed.

(** X9. When every registered player is a [SoundOrVideoPlayer] of the same
    default rank, as the players of this module are, a sound-or-video tag is
    given to the player registered last, and a tag of another kind to
    none. *)
Theorem baseline_players_last_registered_wins :
  forall (registry : list Player) (default_rank : Z),
    (forall p tag, p ∈ registry ->
       rank_for_tag p tag = SoundOrVideoPlayer_rank_for_tag default_rank tag) ->
    (forall filename,
        _best_player_for_tag registry (SoundOrVideoTag filename)
        = last registry) /\
    (forall text, _best_player_for_tag registry (TTSTag text) = None).
Proof.
  intros registry r Hrank. split.
  - intros filename. unfold _best_player_for_tag.
    rewrite last_sort_by_rank, (ranked_players_uniform _ _ r).
    + rewrite latest_max_uniform. by destruct (last registry).
    + intros p Hp. by rewrite Hrank.
  - intros text. apply best_player_none. intros p Hp. by rewrite Hrank.
Qed.

Lemma baseline_players_witness :
  let mpv := mkPlayer 0 (SoundOrVideoPlayer_rank_for_tag 0) in
  let mplayer := mkPlayer 1 (SoundOrVideoPlayer_rank_for_tag 0) in
  _best_player_for_tag [mpv; mplayer] (SoundOrVideoTag "a.mp3")
  = Some mplayer /\
  _best_player_for_tag [mpv; mplayer] (TTSTag "hello") = None.
Proof.
  intros mpv mplayer.
  destruct (baseline_players_last_registered_wins [mpv; mplayer] 0) as [Hs Ht].
  - intros p tag Hp.
    apply elem_of_cons in Hp as [->|Hp]; [reflexivity|].
    apply list_elem_of_singleton in Hp as ->. reflexivity.
  - split; [exact (Hs "a.mp3")|exact (Ht "hello")].
Defined.

End SchedulerRuns.

(** ** Registration *)

Section SetupFacts.
Import AVPlayer Setup.

Lemma best_player_some (ps : list Player) (tag : AVTag) (p : Player) :
  p ∈ ps -> is_Some (rank_for_tag p tag) ->
  is_Some (_best_player_for_tag ps tag).
Proof.
  intros Hp [r Hr].
  destruct (_best_player_for_tag ps tag) as [q|] eqn:Hbest; [by exists q|].
  unfold _best_player_for_tag in Hbest. rewrite last_sort_by_rank in Hbest.
  destruct (latest_max (ranked_players ps tag)) eqn:Hm; [discriminate Hbest|].
  apply latest_max_None in Hm.
  rewrite (proj1 (ranked_players_nil ps tag) Hm p Hp) in Hr. discriminate Hr.
Qed.

(** Whatever [setup_audio] does, the players registered before the call
    stay registered, in their places. *)
Lemma setup_audio_keeps_registry (isWin isMac : bool) (start : MpvStart)
    (mac_tts win_tts : option Player) (mpvManager : option Player)
    (players : list Player) :
  exists more,
    (setup_audio isWin isMac start mac_tts win_tts mpvManager players).1.1.2
    = players ++ more.
Proof.
  unfold setup_audio, platform_tts.
  destruct isWin, isMac, start, mac_tts, win_tts, mpvManager; simpl;
    rewrite <- ?app_assoc; eauto using app_nil_r.
Qed.

(** X10. [setup_audio] on the module's initial state (no manager, no
    player), on every platform, however the construction of the mpv
    manager ends and whether or not the text-to-speech player can be
    constructed.  Off Windows, an exception of the mpv manager other than
    the two that are handled leaves [setup_audio] before anything is
    registered.  In every other case exactly one player for sound and video
    is registered first, the mpv manager if it started and mplayer
    otherwise (mpv is not tried on Windows), followed by the
    text-to-speech player of the platform if there is one and it could be
    constructed; an exception leaves [setup_audio] exactly when that
    construction raised; and in the resulting registry, and in whatever a
    later call makes of it, the selection finds a player for every
    sound-or-video tag. *)
Theorem setup_audio_registers_a_sound_player :
  forall (isWin isMac : bool) (start : MpvStart)
         (mac_tts win_tts : option Player),
    let '(manager, registry, printed, ending) :=
      setup_audio isWin isMac start mac_tts win_tts None [] in
    if negb isWin && mpv_unhandled start then
      manager = None /\ registry = [] /\ printed = [] /\ ending = Raised
    else
      let sound := if negb isWin && mpv_started start
                   then new_MpvManager else new_mplayer in
      let tts := platform_tts isWin isMac mac_tts win_tts in
      registry = sound :: match tts with
                          | Some (Some player) => [player]
                          | _ => []
                          end /\
      ending = match tts with
               | Some None => Raised
               | _ => Done
               end /\
      manager = (if negb isWin && mpv_started start
                 then Some new_MpvManager else None) /\
      (isWin = true -> printed = []) /\
      (forall filename,
          is_Some (_best_player_for_tag registry (SoundOrVideoTag filename))) /\
      (forall isWin' isMac' start' mac_tts' win_tts' filename,
          is_Some (_best_player_for_tag
                     (setup_audio isWin' isMac' start' mac_tts' win_tts'
                                  manager registry).1.1.2
                     (SoundOrVideoTag filename))).
Proof.
  intros isWin isMac start mac_tts win_tts.
  assert (Hsound : forall (ps : list Player) (p : Player) filename,
             p ∈ ps -> p = new_MpvManager \/ p = new_mplayer ->
             is_Some (_best_player_for_tag ps (SoundOrVideoTag filename))).
  { intros ps p filename Hp Hkind. apply (best_player_some ps _ p Hp).
    destruct Hkind as [-> | ->]; by exists 0. }
  assert (Hlater : forall (manager : option Player) (p : Player)
                          (rest : list Player),
             p = new_MpvManager \/ p = new_mplayer ->
             forall isWin' isMac' start' mac_tts' win_tts' filename,
               is_Some (_best_player_for_tag
                          (setup_audio isWin' isMac' start' mac_tts' win_tts'
                                       manager (p :: rest)).1.1.2
                          (SoundOrVideoTag filename))).
  { intros manager p rest Hkind isWin' isMac' start' mac_tts' win_tts' filename.
    destruct (setup_audio_keeps_registry isWin' isMac' start' mac_tts'
                win_tts' manager (p :: rest)) as [more ->].
    apply (Hsound _ p); [apply list_elem_of_here|done]. }
  destruct isWin, isMac, start, mac_tts as [mac|], win_tts as [win|];
    lazymatch goal with
    | |- context [setup_audio ?w ?m ?st ?mt ?wt None []] =>
        let r := eval cbv [setup_audio platform_tts negb app] in
                   (setup_audio w m st mt wt None []) in
        change (setup_audio w m st mt wt None []) with r
    end;
    cbn [negb andb mpv_unhandled mpv_started platform_tts];
    try (repeat split; reflexivity);
    (split; [reflexivity|]); (split; [reflexivity|]);
    (split; [reflexivity|]); (split; [done|]);
    (split;
      [intros filename; eapply Hsound; [apply list_elem_of_here|auto]
      |apply Hlater; auto]).
Qed.

End SetupFacts.

(** ** Further properties of the process-backed players *)

Section SupervisorFacts.
Import SimpleProcessPlayer.

Implicit Types (s : t) (schedule : list Step).

Ltac player_fields :=
  unfold set_terminate_flag, set_process, effect; simpl.

(** X11. The supervising loop is still running at the end of a schedule
    exactly when the supervisor left the process alone throughout it: the
    loop ends at the first wait at which the process has exited, or at the
    first wait that times out once the flag is raised, whichever comes
    first, and never otherwise. *)
Theorem wait_loop_runs_while_left_running :
  forall (schedule : list Step) (s : t),
    wait_loop schedule s = None <->
    left_running (_terminate_flag s) schedule = true.
Proof.
  induction schedule as [|[[rc|]|] schedule IH]; intros s; simpl.
  - done.
  - done.
  - destruct (_terminate_flag s) eqn:Hf; simpl; [done|].
    rewrite IH, Hf. done.
  - by rewrite IH.
Qed.

Lemma wait_loop_result schedule s res s1 :
  wait_loop schedule s = Some (res, s1) ->
  _process s1 = _process s /\
  ((res = Returned /\
    exists rc, effects s1
               = effects s ++ (if rc =? 0 then [] else [PrintedReturnCode rc]))
   \/ (res = Raised PlayerInterrupted /\
       effects s1 = effects s ++ [Terminated])).
Proof.
  revert s. induction schedule as [|[[rc|]|] schedule IH]; intros s; simpl.
  - done.
  - intros [= <- <-]. split; [by destruct (rc =? 0)|].
    left. split; [done|]. exists rc. destruct (rc =? 0); [|done].
    by rewrite app_nil_r.
  - destruct (_terminate_flag s).
    + intros [= <- <-]. split; [done|]. by right.
    + apply IH.
  - intros H. by apply IH in H.
Qed.

(** X12. Whenever [_wait_for_termination] comes back, normally or with
    [PlayerInterrupted], the process handle and the stop flag are cleared;
    it never raises anything else; it prints at most the exit code when it
    returns; and it has terminated the process exactly when it raises
    [PlayerInterrupted]. *)
Theorem wait_for_termination_always_cleans_up :
  forall (schedule : list Step) (s : t) (res : FutureResult) (s' : t),
    _wait_for_termination schedule s = Some (res, s') ->
    _terminate_flag s' = false /\
    _process s' = None /\
    ((res = Returned /\
      exists rc, effects s'
                 = effects s ++ (if rc =? 0 then [] else [PrintedReturnCode rc]))
     \/ (res = Raised PlayerInterrupted /\
         effects s' = effects s ++ [Terminated])).
Proof.
  intros schedule s res s'. unfold _wait_for_termination.
  destruct (wait_loop schedule s) as [[res1 s1]|] eqn:Hloop; [|done].
  intros [= <- <-]. split; [done|]. split; [done|].
  by destruct (wait_loop_result _ _ _ _ Hloop) as [_ H].
Qed.

Lemma wait_for_termination_witness :
  _wait_for_termination [Wait TimeoutExpired; StopRequested;
                         Wait TimeoutExpired]
                        (mk false (Some ["mplayer"; "a.mp3"]) [])
  = Some (Raised PlayerInterrupted, mk false None [Terminated]) /\
  _terminate_flag (mk false None [Terminated]) = false.
Proof.
  split; [reflexivity|].
  exact (proj1 (wait_for_termination_always_cleans_up
                  [Wait TimeoutExpired; StopRequested; Wait TimeoutExpired]
                  (mk false (Some ["mplayer"; "a.mp3"]) [])
                  (Raised PlayerInterrupted) (mk false None [Terminated])
                  eq_refl)).
Defined.

(** X13. A play that has finished ended in one of four ways, for a
    [Popen] that starts the process or raises [OSError] and a process whose
    waits time out or report an exit code.  The process was started and
    exited on its own: [on_done] is applied, and nothing was terminated.
    The process was started and the supervisor terminated it: [on_done] is
    not applied.  [Popen] raised: nothing was launched, the player is as it
    was, stop flag included, [on_done] is not applied and the [OSError]
    leaves [_on_done].  The tag is not a sound-or-video tag: nothing was
    launched, the player is unchanged, [on_done] is not applied and the
    assertion error leaves [_on_done].  In the first two cases exactly one
    process was launched, with the file name as last argument, and handle
    and flag are cleared. *)
Theorem play_ends_in_one_of_four_ways :
  forall (S : Type) (launch : Popen) (args : list string) (tag : AVTag)
         (on_done : S -> S) (schedule : list Step) (s : t) (main : S)
         (s' : t) (out : Outcome S),
    play_launching launch args tag on_done schedule s main = Some (s', out) ->
    (exists filename rc,
        tag = SoundOrVideoTag filename /\ launch = Started /\
        out = Ok (on_done main) /\
        s' = mk false None
                (effects s ++ Launched (args ++ [filename])
                   :: (if rc =? 0 then [] else [PrintedReturnCode rc])))
    \/ (exists filename,
           tag = SoundOrVideoTag filename /\ launch = Started /\
           out = Ok main /\
           s' = mk false None
                   (effects s ++ [Launched (args ++ [filename]); Terminated]))
    \/ (exists filename,
           tag = SoundOrVideoTag filename /\ launch = PopenRaised /\
           out = Propagated OSError /\ s' = s)
    \/ (exists text,
           tag = TTSTag text /\ out = Propagated AssertionError /\ s' = s).
Proof.
  intros S launch args tag on_done schedule s main s' out.
  unfold play_launching, _play_launching, _play.
  destruct tag as [filename|text], launch.
  - unfold _wait_for_termination.
    destruct (wait_loop schedule _) as [[res s1]|] eqn:Hloop; [|done].
    intros [= <- <-].
    destruct (wait_loop_result _ _ _ _ Hloop) as [_ [[-> [rc He]]|[-> He]]].
    + left. exists filename, rc. do 3 (split; [done|]).
      player_fields. rewrite He. simpl. by rewrite <- app_assoc.
    + right. left. exists filename. do 3 (split; [done|]).
      player_fields. rewrite He. simpl. by rewrite <- app_assoc.
  - intros [= <- <-]. right. right. left. by exists filename.
  - intros [= <- <-]. right. right. right. by exists text.
  - intros [= <- <-]. right. right. right. by exists text.
Qed.

Lemma play_ends_witness :
  play_launching PopenRaised ["mplayer"] (SoundOrVideoTag "a.mp3") Nat.succ
    [Wait (Exited 0)] (mk true None []) 0%nat
  = Some (mk true None [], Propagated OSError) /\
  play_launching Started ["mplayer"] (SoundOrVideoTag "a.mp3") Nat.succ
    [Wait TimeoutExpired; Wait (Exited 1)] init 0%nat
  = Some (mk false None [Launched ["mplayer"; "a.mp3"]; PrintedReturnCode 1],
          Ok 1%nat) /\
  ((exists filename rc,
       SoundOrVideoTag "a.mp3" = SoundOrVideoTag filename /\
       PopenRaised = Started /\
       Propagated OSError = Ok (Nat.succ 0%nat) /\
       mk true None []
       = mk false None
            (effects (mk true None []) ++ Launched (["mplayer"] ++ [filename])
               :: (if rc =? 0 then [] else [PrintedReturnCode rc])))
   \/ (exists filename,
          SoundOrVideoTag "a.mp3" = SoundOrVideoTag filename /\
          PopenRaised = Started /\
          Propagated OSError = Ok 0%nat /\
          mk true None []
          = mk false None
               (effects (mk true None [])
                  ++ [Launched (["mplayer"] ++ [filename]); Terminated]))
   \/ (exists filename,
          SoundOrVideoTag "a.mp3" = SoundOrVideoTag filename /\
          PopenRaised = PopenRaised /\
          @Propagated nat OSError = Propagated OSError /\
          mk true None [] = mk true None [])
   \/ (exists text,
          SoundOrVideoTag "a.mp3" = TTSTag text /\
          @Propagated nat OSError = Propagated AssertionError /\
          mk true None [] = mk true None [])).
Proof.
  split; [reflexivity|]. split; [reflexivity|].
  exact (play_ends_in_one_of_four_ways nat PopenRaised ["mplayer"]
           (SoundOrVideoTag "a.mp3") Nat.succ [Wait (Exited 0)]
           (mk true None []) 0%nat (mk true None [])
           (Propagated OSError) eq_refl).
Defined.

(** *** [stop] and the supervising loop together *)

Import Supervision.

(** [stop] returns at the first test that finds the flag cleared. *)
Lemma stop_at_first_clear (others : nat -> t -> t) (clock : Clock) s
    (k : nat) :
  advances clock ->
  (forall j, (j < k)%nat ->
     _terminate_flag (after_sleeps others 0 j (set_terminate_flag true s))
     = true /\
     reading clock j - t0 clock < CEILING clock) ->
  _terminate_flag (after_sleeps others 0 k (set_terminate_flag true s))
  = false ->
  stop others clock s
  = Some (after_sleeps others 0 k (set_terminate_flag true s), k).
Proof.
  intros Hadv Hup Hdown.
  destruct (stop_loop_bounded others clock Hadv (max_sleeps clock)
              (max_sleeps clock) 0 (set_terminate_flag true s))
    as (n & Hn & Hloop & Hup' & Hend); [lia|lia|].
  unfold stop. rewrite Hloop. cbn [Nat.add] in *.
  assert (n = k) as ->; [|done].
  destruct (Nat.lt_trichotomy n k) as [Hlt|[Heq|Hgt]]; [|done|].
  - destruct (Hup n Hlt) as [Hf Ht].
    destruct Hend as [Hend|Hend]; [congruence|lia].
  - destruct (Hup' k Hgt) as [Hf _]. congruence.
Qed.

Lemma after_sleeps_supervisor (k : nat) (o : WaitOutcome) s :
  (forall j, (j <= k)%nat ->
     after_sleeps (supervisor_during_stop k o) 0 j s = s) /\
  after_sleeps (supervisor_during_stop k o) 0 (S k) s
  = supervisor_during_stop k o k s.
Proof.
  assert (Hgen : forall j i, (i + j <= k)%nat ->
             forall s0, after_sleeps (supervisor_during_stop k o) i j s0 = s0).
  { induction j as [|j IH]; intros i Hi s0; [done|]. simpl.
    unfold supervisor_during_stop at 2.
    destruct (Nat.eqb_spec i k) as [->|_]; [lia|]. apply IH. lia. }
  split.
  - intros j Hj. apply Hgen. lia.
  - assert (Hsplit : forall j i s0,
               after_sleeps (supervisor_during_stop k o) i (S j) s0
               = supervisor_during_stop k o (i + j)
                   (after_sleeps (supervisor_during_stop k o) i j s0)).
    { induction j as [|j IH]; intros i s0.
      - simpl. by rewrite Nat.add_0_r.
      - change (after_sleeps (supervisor_during_stop k o) i (S (S j)) s0)
          with (after_sleeps (supervisor_during_stop k o) (S i) (S j)
                  (supervisor_during_stop k o i s0)).
        rewrite IH. simpl. by rewrite Nat.add_succ_r. }
    rewrite Hsplit. simpl. by rewrite Hgen by lia.
Qed.

(** X14. [stop] on a player whose supervising loop is running, on any
    clock that advances: if the loop comes back from its wait during the
    sleep of index [k] of the caller, a sleep that starts before 10 seconds
    have elapsed, whether the process has exited by then or not, the caller
    regains control after [k + 1] sleeps, and finds the flag cleared, the
    process handle cleared and, when the process had not exited, the
    process terminated.  On the clock whose sleeps last exactly 100 ms this
    is every [k] below 100. *)
Theorem stop_returns_once_supervisor_reacts :
  forall (k : nat) (o : WaitOutcome) (clock : Clock) (s : t),
    advances clock ->
    reading clock k - t0 clock < CEILING clock ->
    stop (supervisor_during_stop k o) clock s
    = Some (mk false None (effects s ++ round_effects o), S k).
Proof.
  intros k o clock s Hadv Hk.
  destruct (after_sleeps_supervisor k o (set_terminate_flag true s))
    as [Hbefore Hat].
  assert (Hfinal : supervisor_during_stop k o k (set_terminate_flag true s)
                   = mk false None (effects s ++ round_effects o)).
  { unfold supervisor_during_stop. rewrite Nat.eqb_refl.
    destruct o as [rc|]; simpl; [|done].
    destruct (rc =? 0); [|done]. player_fields. by rewrite app_nil_r. }
  rewrite (stop_at_first_clear _ clock s (S k) Hadv).
  - by rewrite Hat, Hfinal.
  - intros j Hj. rewrite Hbefore by lia. split; [done|].
    pose proof (reading_monotone clock Hadv j k). lia.
  - by rewrite Hat, Hfinal.
Qed.

Lemma stop_supervisor_witness :
  stop (supervisor_during_stop 0 TimeoutExpired) (exact_clock 0)
       (mk false (Some ["mplayer"; "a.mp3"]) [])
  = Some (mk false None [Terminated], 1%nat) /\
  (forall k, (k < 100)%nat ->
     stop (supervisor_during_stop k TimeoutExpired) (exact_clock 0)
          (mk false (Some ["mplayer"; "a.mp3"]) [])
     = Some (mk false None [Terminated], S k)).
Proof.
  split.
  - refine (stop_returns_once_supervisor_reacts 0 TimeoutExpired
              (exact_clock 0) (mk false (Some ["mplayer"; "a.mp3"]) [])
              (exact_clock_advances 0) _).
    reflexivity.
  - intros k Hk.
    refine (stop_returns_once_supervisor_reacts k TimeoutExpired
              (exact_clock 0) (mk false (Some ["mplayer"; "a.mp3"]) [])
              (exact_clock_advances 0) _).
    unfold exact_clock, CEILING. simpl. lia.
Defined.

End SupervisorFacts.

(** ** Further properties of [MpvManager] *)

Section MpvFacts.
Import MpvManager MpvRuns.

Context {S : Type}.
Implicit Types (m : t S) (main : S) (ops : list (Op S)).

Lemma mpv_run_no_play cwd ops m main :
  forallb (fun o => negb (is_play o)) ops = true ->
  _on_done (run cwd ops (m, main)).1 = _on_done m /\
  (_on_done m = None -> (run cwd ops (m, main)).2 = main) /\
  (forall cb, _on_done m = Some cb ->
     (run cwd ops (m, main)).2 = Nat.iter (idle_reports ops) cb main).
Proof.
  revert m main. induction ops as [|o ops IH]; intros m main Hops.
  - done.
  - simpl in Hops. apply andb_true_iff in Hops as [Ho Hops].
    change (run cwd (o :: ops) (m, main))
      with (run cwd ops (step cwd (m, main) o)).
    destruct o as [[filename|text] cb0| |secs|]; try discriminate Ho; simpl.
    + destruct (IH m main Hops) as (H1 & H2 & H3). done.
    + destruct (IH (stop m) main Hops) as (H1 & H2 & H3). done.
    + destruct (IH (seek_relative secs m) main Hops) as (H1 & H2 & H3). done.
    + destruct (IH m (on_idle m main) Hops) as (H1 & H2 & H3).
      split; [done|]. unfold on_idle in *. split.
      * intros Hnone. rewrite Hnone in *. by apply H2.
      * intros cb Hcb. rewrite Hcb in *. rewrite (H3 cb eq_refl).
        symmetry. apply (Nat.iter_succ_r (idle_reports ops) cb main).
Qed.

Lemma mpv_run_app cwd ops1 ops2 (st : t S * S) :
  run cwd (ops1 ++ ops2) st = run cwd ops2 (run cwd ops1 st).
Proof. unfold run. apply foldl_app. Qed.

(** X15. The manager calls, at every idle report of mpv, the callback of
    the latest [play] of a sound-or-video tag, and nothing ever clears it:
    after such a [play], through any stops, seeks, failed plays and idle
    reports, the primary context has seen that callback once per idle
    report, and one more report calls it once more.  Before the first
    [play], idle reports do nothing. *)
Theorem mpv_manager_calls_latest_callback_at_every_idle :
  forall (cwd : string) (before after : list (Op S)) (filename : string)
         (on_done : S -> S) (m : t S) (main : S),
    forallb (fun o => negb (is_play o)) after = true ->
    let st1 := run cwd before (m, main) in
    let st2 :=
      run cwd (before ++ OpPlay (SoundOrVideoTag filename) on_done :: after)
          (m, main) in
    st2.2 = Nat.iter (idle_reports after) on_done st1.2 /\
    on_idle st2.1 st2.2 = on_done st2.2 /\
    (run cwd after (init, main)).2 = main.
Proof.
  intros cwd before after filename on_done m main Hafter st1 st2.
  subst st1 st2. rewrite mpv_run_app.
  destruct (run cwd before (m, main)) as [m1 main1] eqn:Hrun.
  set (m2 := command (Loadfile (os_path_join cwd filename))
               (mk (Some on_done) (commands m1))).
  change (run cwd (OpPlay (SoundOrVideoTag filename) on_done :: after)
              (m1, main1))
    with (run cwd after (m2, main1)).
  destruct (mpv_run_no_play cwd after m2 main1 Hafter) as (H1 & _ & H3).
  destruct (mpv_run_no_play cwd after init main Hafter) as (_ & H2' & _).
  split; [by apply H3|]. split; [|by apply H2'].
  unfold on_idle. by rewrite H1.
Qed.

End MpvFacts.

Lemma mpv_manager_callback_witness :
  let st := MpvRuns.run (S := nat) "/media"
                [MpvRuns.OpIdle;
                 MpvRuns.OpPlay (SoundOrVideoTag "a.mp3") Nat.succ;
                 MpvRuns.OpStop; MpvRuns.OpIdle; MpvRuns.OpSeek 5;
                 MpvRuns.OpIdle]
                (MpvManager.init, 0%nat) in
  st.2 = 2%nat /\ MpvManager.on_idle st.1 st.2 = 3%nat.
Proof.
  destruct (mpv_manager_calls_latest_callback_at_every_idle
              "/media" [MpvRuns.OpIdle]
              [MpvRuns.OpStop; MpvRuns.OpIdle; MpvRuns.OpSeek 5;
               MpvRuns.OpIdle] "a.mp3"
              Nat.succ MpvManager.init 0%nat eq_refl) as (H1 & H2 & _).
  split; [exact H1|exact H2].
Defined.

(** ** Strings *)

Section StringFacts.

Lemma string_app_cons (a : Ascii.ascii) (s t : string) :
  String a s +:+ t = String a (s +:+ t).
Proof. reflexivity. Qed.

Lemma string_app_nil_r (s : string) : s +:+ "" = s.
Proof.
  induction s as [|a s IH]; [done|]. by rewrite string_app_cons, IH.
Qed.

Lemma string_app_assoc (s t u : string) : (s +:+ t) +:+ u = s +:+ (t +:+ u).
Proof.
  induction s as [|a s IH]; [done|]. by rewrite !string_app_cons, IH.
Qed.

Lemma string_app_length (s t : string) :
  String.length (s +:+ t) = (String.length s + String.length t)%nat.
Proof.
  induction s as [|a s IH]; [done|]. rewrite string_app_cons. simpl.
  by rewrite IH.
Qed.

(** Appending on the right is injective. *)
Lemma string_app_inj_r (s1 s2 t : string) : s1 +:+ t = s2 +:+ t -> s1 = s2.
Proof.
  revert s2. induction s1 as [|a s1 IH]; intros [|b s2] H.
  - done.
  - apply (f_equal String.length) in H.
    change ("" +:+ t) with t in H.
    rewrite string_app_cons in H. simpl in H.
    rewrite string_app_length in H. lia.
  - apply (f_equal String.length) in H.
    change ("" +:+ t) with t in H.
    rewrite string_app_cons in H. simpl in H.
    rewrite string_app_length in H. lia.
  - rewrite !string_app_cons in H. injection H as -> H. f_equal. by apply IH.
Qed.

End StringFacts.

(** ** The slave-mode command channel *)

Section SlaveModeFacts.
Import SlaveMode.

Lemma slave_step_live (o : Op) (stdin : string) :
  step o (Some stdin) = Sent (stdin +:+ line o).
Proof.
  destruct o as [secs|]; simpl; unfold seek_relative, toggle_pause, command.
  - by rewrite !string_app_assoc.
  - done.
Qed.

(** X16. Commands sent over the slave interface of a running process are
    written in call order, each as one line that ends with a newline:
    after any sequence of seeks and pause toggles the process has received
    what it had received before followed by the lines of the calls, and no
    call fails.  Without a process every call raises [AttributeError].
    The line of a seek determines the number of seconds, and is never the
    line of a pause. *)
Theorem slave_commands_are_written_as_lines :
  forall (ops : list Op) (stdin : string),
    run ops stdin = Sent (stdin +:+ lines ops) /\
    (forall o, step o None = AttributeError) /\
    (forall o, exists text, line o = text +:+ newline) /\
    (forall a b, line (OpSeek a) = line (OpSeek b) -> a = b) /\
    (forall a, line (OpSeek a) <> line OpTogglePause).
Proof.
  intros ops stdin. split; [|split; [|split; [|split]]].
  - revert stdin. induction ops as [|o ops IH]; intros stdin.
    + simpl. by rewrite string_app_nil_r.
    + change (run (o :: ops) stdin)
        with (match step o (Some stdin) with
              | Sent stdin' => run ops stdin'
              | AttributeError => AttributeError
              end).
      rewrite slave_step_live, IH. simpl. by rewrite string_app_assoc.
  - by intros [secs|].
  - intros [secs|]; simpl.
    + exists ("seek " +:+ pretty secs +:+ " 0"). by rewrite !string_app_assoc.
    + by exists "pause".
  - intros a b H. unfold line in H.
    apply (inj (String.append "seek ")) in H.
    rewrite <- !string_app_assoc in H.
    do 2 apply string_app_inj_r in H. by apply (inj pretty) in H.
  - intros a H. unfold line in H. discriminate H.
Qed.

End SlaveModeFacts.

(** ** The shared argument template of the mpv players *)

Section MpvPlayerArgFacts.
Import MpvPlayerArgs.

Lemma new_players_from (folders : list string) (heap : gmap nat (list string))
    (l : list string) :
  heap !! class_args_ref = Some l ->
  exists (heap' : gmap nat (list string)) (instances : list Instance),
    new_players folders heap = Some (heap', instances) /\
    length instances = length folders /\
    heap' !! class_args_ref = Some (l ++ map include_arg folders) /\
    forall self, self ∈ instances -> own_args self = Some class_args_ref.
Proof.
  revert heap l. induction folders as [|folder folders IH]; intros heap l Hl.
  - exists heap, []. simpl. rewrite app_nil_r.
    repeat split; try done. intros self Hin. inversion Hin.
  - cbn [new_players]. unfold new_SimpleMpvPlayer, args_ref.
    cbn [own_args]. rewrite Hl.
    destruct (IH (<[class_args_ref := l ++ [include_arg folder]]> heap)
                (l ++ [include_arg folder])) as (heap' & insts & Hn & Hlen & Hh & Hown).
    { apply lookup_insert_eq. }
    rewrite Hn. exists heap', (mkInstance (Some class_args_ref) :: insts).
    split; [done|]. split; [simpl; by rewrite Hlen|]. split.
    + rewrite Hh. by rewrite <- app_assoc.
    + intros self Hin. apply elem_of_cons in Hin as [->|Hin]; [done|].
      by apply Hown.
Qed.

(** X17. Constructing [SimpleMpvPlayer]s, one per base folder, never
    fails, and each construction extends the one list that the class binds
    to [args]: afterwards that list is the template followed by the
    [--include=] argument of every folder, in order of construction; every
    instance binds its own [args], but to that same list; so every
    instance, the first one included, starts its process with the
    [--include=] arguments of all the players constructed. *)
Theorem mpv_players_accumulate_includes_in_shared_args :
  forall (exe : string) (base_folders : list string),
    let template := mpv_args exe ++ map include_arg base_folders in
    exists (heap : gmap nat (list string)) (instances : list Instance),
      new_players base_folders (module_loaded exe) = Some (heap, instances) /\
      length instances = length base_folders /\
      heap !! class_args_ref = Some template /\
      (forall self, self ∈ instances ->
         own_args self = Some class_args_ref) /\
      (forall self filename, self ∈ instances ->
         popen_command heap self filename = Some (template ++ [filename])).
Proof.
  intros exe folders template.
  destruct (new_players_from folders (module_loaded exe) (mpv_args exe))
    as (heap & insts & Hn & Hlen & Hh & Hown).
  { apply lookup_singleton_eq. }
  exists heap, insts. repeat (split; [done|]).
  intros self filename Hin. unfold popen_command, args_ref.
  by rewrite (Hown self Hin), Hh.
Qed.

Example two_mpv_players_share_includes :
  match new_players ["/a"; "/b"] (module_loaded "mpv") with
  | Some (heap, first :: _) => popen_command heap first "x.mp3"
  | _ => None
  end
  = Some (mpv_args "mpv"
            ++ ["--include=/a/mpv.conf"; "--include=/b/mpv.conf"; "x.mp3"]).
Proof. vm_compute. reflexivity. Qed.

End MpvPlayerArgFacts.

(** ** Bundled executables *)

Section PackagedCmdFacts.
Import PackagedCmd.

Lemma endswith_refl (s : string) : endswith s s = true.
Proof. destruct s; cbn [endswith]; by rewrite String.eqb_refl. Qed.

Lemma endswith_app (s suffix : string) : endswith (s +:+ suffix) suffix = true.
Proof.
  induction s as [|a s IH]; [apply endswith_refl|].
  rewrite string_app_cons. cbn [endswith]. rewrite IH. apply orb_true_r.
Qed.

Lemma lookup_name_idempotent (h : Host) (name : string) :
  lookup_name h (lookup_name h name) = lookup_name h name.
Proof.
  unfold lookup_name. destruct (isMac h); [done|].
  destruct (isWin h); simpl; [|done].
  destruct (endswith name ".exe") eqn:Hend; simpl.
  - by rewrite Hend.
  - by rewrite endswith_app.
Qed.

(** X18. [_packagedCmd] fails only on an empty command.  Otherwise it
    returns a command of the same length whose arguments after the first
    are those given, and whose first entry is either a path that exists,
    made of the directory of bundled executables and the looked-up name, or
    else that name; and an environment that has no [LD_LIBRARY_PATH] and
    agrees with the process environment on every other variable. *)
Theorem packagedCmd_changes_only_the_executable :
  forall (h : Host) (cmd : list string),
    match _packagedCmd h cmd with
    | None => cmd = []
    | Some (cmd', env) =>
        length cmd' = length cmd /\
        tail cmd' = tail cmd /\
        (exists name exe,
            head cmd = Some name /\ head cmd' = Some exe /\
            let exeDir := if isMac h then mac_exeDir h else argv0_dir h in
            let path := path_join h exeDir (lookup_name h name) in
            (path_exists h path = true /\ exe = path
             \/ path_exists h path = false /\ exe = lookup_name h name)) /\
        env !! "LD_LIBRARY_PATH" = None /\
        (forall k, k <> "LD_LIBRARY_PATH" -> env !! k = environ h !! k)
    end.
Proof.
  intros h [|name rest]; simpl; [done|].
  set (path := path_join h _ _).
  assert (Henv : delete "LD_LIBRARY_PATH" (environ h) !! "LD_LIBRARY_PATH"
                 = None) by apply lookup_delete_eq.
  assert (Hother : forall k, k <> "LD_LIBRARY_PATH" ->
             delete "LD_LIBRARY_PATH" (environ h) !! k = environ h !! k).
  { intros k Hk. by apply lookup_delete_ne. }
  destruct (path_exists h path) eqn:Hex; simpl;
    (split; [done|]); (split; [done|]); (split; [|done]).
  - exists name, path. split; [done|]. split; [done|]. by left.
  - exists name, (lookup_name h name). split; [done|]. split; [done|].
    by right.
Qed.

(** X19. When the looked-up name is not found in the directory of bundled
    executables, [_packagedCmd] returns the command with that name in
    front, and applying it to its own result changes nothing; on Windows
    (and not on a Mac) that name ends with [".exe"], which is added once
    and not again. *)
Theorem packagedCmd_not_bundled_is_stable :
  forall (h : Host) (name : string) (rest : list string),
    let exeDir := if isMac h then mac_exeDir h else argv0_dir h in
    path_exists h (path_join h exeDir (lookup_name h name)) = false ->
    let result := (lookup_name h name :: rest,
                   delete "LD_LIBRARY_PATH" (environ h)) in
    _packagedCmd h (name :: rest) = Some result /\
    _packagedCmd h result.1 = Some result /\
    (isMac h = false -> isWin h = true ->
     endswith (lookup_name h name) ".exe" = true).
Proof.
  intros h name rest exeDir Hnot result. subst exeDir result. simpl.
  rewrite lookup_name_idempotent, Hnot. split; [done|]. split; [done|].
  intros Hmac Hwin. unfold lookup_name. rewrite Hmac, Hwin. simpl.
  destruct (endswith name ".exe") eqn:Hend; simpl; [done|].
  apply endswith_app.
Qed.

Lemma packagedCmd_not_bundled_witness :
  let h := mkHost {[ "LD_LIBRARY_PATH" := "/opt/lib"; "HOME" := "/home/u" ]}
                  false true "/mac" "C:/anki" (fun _ => false)
                  (fun d f => d +:+ "/" +:+ f) in
  _packagedCmd h ["mplayer"; "-really-quiet"]
  = Some (["mplayer.exe"; "-really-quiet"], {[ "HOME" := "/home/u" ]}) /\
  _packagedCmd h ["mplayer.exe"; "-really-quiet"]
  = Some (["mplayer.exe"; "-really-quiet"], {[ "HOME" := "/home/u" ]}).
Proof.
  intros h.
  destruct (packagedCmd_not_bundled_is_stable h "mplayer" ["-really-quiet"]
              eq_refl) as (H1 & H2 & _).
  assert (Henv : delete "LD_LIBRARY_PATH" (environ h)
                 = {[ "HOME" := "/home/u" ]}).
  { apply map_eq. intros k. subst h. simpl.
    destruct (decide (k = "LD_LIBRARY_PATH")) as [->|Hk].
    - rewrite lookup_delete_eq. by rewrite lookup_singleton_ne.
    - rewrite lookup_delete_ne by done. rewrite lookup_insert_ne by done.
      done. }
  rewrite Henv in H1, H2. split; [exact H1|exact H2].
Defined.

End PackagedCmdFacts.

(** ** Play buttons *)

Section AVFlagFacts.
Import AVFlags.

Variable nd : N -> bool.

Implicit Types (text rest digits lit : list N).

Lemma strip_prefix_app lit rest : strip_prefix lit (lit ++ rest) = Some rest.
Proof.
  induction lit as [|a lit IH]; [done|]. simpl. by rewrite N.eqb_refl.
Qed.

Lemma strip_prefix_Some lit text rest :
  strip_prefix lit text = Some rest -> text = lit ++ rest.
Proof.
  revert text. induction lit as [|a lit IH]; intros text; simpl.
  - by intros [= ->].
  - destruct text as [|c text]; [done|].
    destruct (N.eqb_spec a c) as [->|]; [|done].
    intros H. by rewrite (IH _ H).
Qed.

Lemma strip_prefix_length lit text rest :
  strip_prefix lit text = Some rest -> length text = (length lit + length rest)%nat.
Proof. intros H. rewrite (strip_prefix_Some _ _ _ H). apply length_app. Qed.

Lemma take_digits_spec text :
  let '(digits, rest) := take_digits nd text in
  text = digits ++ rest /\
  Forall (fun c => is_digit nd c = true) digits /\
  (forall c rest', rest = c :: rest' -> is_digit nd c = false).
Proof.
  induction text as [|c text IH]; simpl.
  - split; [done|]. split; [constructor|]. by intros c rest' H.
  - destruct (is_digit nd c) eqn:Hc.
    + destruct (take_digits nd text) as [digits rest].
      destruct IH as (-> & Hd & Hr). split; [done|]. split; [|done].
      by constructor.
    + split; [done|]. split; [constructor|].
      by intros c' rest' [= <- <-].
Qed.

Lemma take_digits_app digits rest :
  Forall (fun c => is_digit nd c = true) digits ->
  (forall c rest', rest = c :: rest' -> is_digit nd c = false) ->
  take_digits nd (digits ++ rest) = (digits, rest).
Proof.
  intros Hd Hr. induction Hd as [|c digits Hc Hd IH]; simpl.
  - destruct rest as [|c rest']; [done|]. simpl.
    by rewrite (Hr c rest' eq_refl).
  - by rewrite Hc, IH.
Qed.

Lemma bracket_not_digit : is_digit nd 91 = false.
Proof. reflexivity. Qed.

(** The scanner finds a flag where there is one... *)
Lemma match_flag_flag digits rest :
  digits <> [] -> Forall (fun c => is_digit nd c = true) digits ->
  match_flag nd (flag digits ++ rest) = Some (digits, rest).
Proof.
  intros Hne Hd. unfold match_flag, flag.
  rewrite <- app_assoc, strip_prefix_app, <- app_assoc, take_digits_app.
  - destruct digits as [|d digits]; [done|]. by rewrite strip_prefix_app.
  - done.
  - intros c rest' H. injection H as <- _. apply bracket_not_digit.
Qed.

(** ... and only there. *)
Lemma match_flag_Some text digits rest :
  match_flag nd text = Some (digits, rest) ->
  text = flag digits ++ rest /\ digits <> [] /\
  Forall (fun c => is_digit nd c = true) digits.
Proof.
  unfold match_flag, flag.
  destruct (strip_prefix OPEN text) as [rest1|] eqn:H1; [|done].
  pose proof (take_digits_spec rest1) as Hspec.
  destruct (take_digits nd rest1) as [[|d ds] rest2]; [done|].
  destruct Hspec as (Hrest1 & Hd & _).
  destruct (strip_prefix CLOSE rest2) as [rest3|] eqn:H3; [|done].
  intros [= <- <-]. apply strip_prefix_Some in H1, H3.
  rewrite H1, Hrest1, H3. rewrite <- !app_assoc. done.
Qed.

Lemma match_flag_no_bracket c text :
  c <> 91%N -> match_flag nd (c :: text) = None.
Proof.
  intros Hc. unfold match_flag.
  assert (Hopen : OPEN = 91%N :: tail OPEN) by reflexivity.
  rewrite Hopen. cbn [strip_prefix].
  destruct (N.eqb_spec 91 c) as [<-|]; done.
Qed.

Lemma match_flag_shorter text digits rest :
  match_flag nd text = Some (digits, rest) -> (length rest < length text)%nat.
Proof.
  intros H. apply match_flag_Some in H as (-> & _ & _).
  unfold flag. rewrite !length_app. simpl. lia.
Qed.

(** Fuel beyond the length of the text changes nothing. *)
Lemma sub_enough_fuel (fuel : nat) text :
  (length text <= fuel)%nat -> sub fuel nd text = sub (length text) nd text.
Proof.
  revert text. induction (lt_wf fuel) as [fuel _ IH]. intros text Hlen.
  destruct text as [|c text]; [by destruct fuel|].
  simpl in Hlen. destruct fuel as [|fuel]; [lia|].
  cbn [length sub].
  destruct (match_flag nd (c :: text)) as [[digits rest]|] eqn:Hm.
  - pose proof (match_flag_shorter _ _ _ Hm) as Hshort. simpl in Hshort.
    rewrite (IH fuel) by lia.
    by rewrite (IH (length text)) by lia.
  - by rewrite (IH fuel) by lia.
Qed.

(** The equations of the substitution, without fuel. *)
Lemma av_flags_to_html_nil : av_flags_to_html nd [] = [].
Proof. reflexivity. Qed.

Lemma av_flags_to_html_cons c text :
  av_flags_to_html nd (c :: text) =
    match match_flag nd (c :: text) with
    | Some (digits, rest) => repl digits ++ av_flags_to_html nd rest
    | None => c :: av_flags_to_html nd text
    end.
Proof.
  unfold av_flags_to_html. cbn [length sub].
  destruct (match_flag nd (c :: text)) as [[digits rest]|] eqn:Hm; [|done].
  pose proof (match_flag_shorter _ _ _ Hm) as Hshort. simpl in Hshort.
  by rewrite sub_enough_fuel by lia.
Qed.

Lemma av_flags_to_html_plain text rest :
  91%N ∉ text ->
  av_flags_to_html nd (text ++ rest) = text ++ av_flags_to_html nd rest.
Proof.
  induction text as [|c text IH]; intros Hno; [done|].
  apply not_elem_of_cons in Hno as [Hc Hno].
  change ((c :: text) ++ rest) with (c :: (text ++ rest)).
  rewrite av_flags_to_html_cons, match_flag_no_bracket by done.
  by rewrite IH.
Qed.

Lemma av_flags_to_html_flag digits rest :
  digits <> [] -> Forall (fun c => is_digit nd c = true) digits ->
  av_flags_to_html nd (flag digits ++ rest)
  = repl digits ++ av_flags_to_html nd rest.
Proof.
  intros Hne Hd.
  pose proof (match_flag_flag digits rest Hne Hd) as Hm.
  destruct (flag digits ++ rest) as [|c text] eqn:Ht; [done|].
  by rewrite av_flags_to_html_cons, Hm.
Qed.

Lemma no_bracket_check text :
  forallb (fun c => negb (c =? 91)%N) text = true -> 91%N ∉ text.
Proof.
  induction text as [|c text IH]; simpl.
  - intros _ H. inversion H.
  - intros [Hc Ht]%andb_true_iff. apply not_elem_of_cons. split; [|by apply IH].
    intros <-. discriminate Hc.
Qed.

(** X20. A text without an opening bracket has no play flag in it and is
    returned as it is. *)
Theorem av_flags_to_html_keeps_text_without_brackets :
  forall (text : list N),
    91%N ∉ text -> av_flags_to_html nd text = text.
Proof.
  intros text Hno.
  rewrite <- (app_nil_r text) at 1.
  rewrite av_flags_to_html_plain by done. by rewrite app_nil_r.
Qed.

(** X21. In a text made of plain segments, free of opening brackets, and
    of play flags, each with a non-empty run of digits, every flag is
    replaced by the anchor that calls [pycmd] with [play:] and the digits of
    the flag, and every plain segment is kept, all in their order. *)
Theorem av_flags_to_html_replaces_each_flag :
  forall (segments : list Segment),
    Forall (well_formed nd) segments ->
    av_flags_to_html nd (concat (map source segments))
    = concat (map html segments).
Proof.
  intros segments Hwf. induction Hwf as [|seg segments Hseg Hwf IH]; [done|].
  cbn [map concat]. destruct seg as [text|digits]; cbn [source html].
  - by rewrite av_flags_to_html_plain, IH.
  - destruct Hseg as [Hne Hd]. by rewrite av_flags_to_html_flag, IH.
Qed.

(** X22. The scanner agrees with the pattern: it reports a match at the
    start of a text exactly when the text starts with the opening literal,
    a non-empty run of digits and the closing literal, and then group 1 is
    that run and the scan goes on right after the closing literal. *)
Theorem match_flag_finds_exactly_the_flags :
  forall (text digits rest : list N),
    match_flag nd text = Some (digits, rest) <->
    text = OPEN ++ digits ++ CLOSE ++ rest /\
    digits <> [] /\
    Forall (fun c => is_digit nd c = true) digits.
Proof.
  intros text digits rest. split.
  - intros H. apply match_flag_Some in H as (-> & Hne & Hd).
    unfold flag. by rewrite <- !app_assoc.
  - intros (-> & Hne & Hd).
    rewrite <- (match_flag_flag digits rest Hne Hd).
    unfold flag. by rewrite <- !app_assoc.
Qed.

End AVFlagFacts.

Lemma av_flags_to_html_plain_witness :
  AVFlags.av_flags_to_html (fun _ => false) (AVFlags.codes "no flags here")
  = AVFlags.codes "no flags here".
Proof.
  apply (av_flags_to_html_keeps_text_without_brackets (fun _ => false)).
  apply no_bracket_check. reflexivity.
Defined.

Lemma av_flags_to_html_flags_witness :
  AVFlags.av_flags_to_html (fun _ => false)
    (AVFlags.codes "front [anki:play]0[/anki:play] back [anki:play]12[/anki:play]")
  = AVFlags.codes "front " ++ AVFlags.repl (AVFlags.codes "0")
      ++ AVFlags.codes " back " ++ AVFlags.repl (AVFlags.codes "12").
Proof.
  pose proof (av_flags_to_html_replaces_each_flag (fun _ => false)
                [AVFlags.Plain (AVFlags.codes "front ");
                 AVFlags.Flag (AVFlags.codes "0");
                 AVFlags.Plain (AVFlags.codes " back ");
                 AVFlags.Flag (AVFlags.codes "12")]) as H.
  rewrite <- (app_nil_r (AVFlags.repl (AVFlags.codes "12"))).
  apply H.
  repeat constructor; try (apply no_bracket_check; reflexivity); done.
Defined.

(** A flag without digits, or without its end, is not a flag. *)
Example av_flags_to_html_ignores_malformed_flags :
  AVFlags.av_flags_to_html (fun _ => false)
    (AVFlags.codes "[anki:play][/anki:play] [anki:play]7[/anki:pla")
  = AVFlags.codes "[anki:play][/anki:play] [anki:play]7[/anki:pla".
Proof. vm_compute. reflexivity. Qed.

(** ** Recording *)

Section RecorderFacts.
Import PackagedCmd Recorder.

Implicit Types (fs : Files) (chain : list (list string)).

Lemma unlink_each_removes (faults : nat -> option Fault)
    (targets : list string) :
  forall (k : nat) fs,
    (snd (unlink_each faults k targets fs) = Constructed <->
     forall i, (i < length targets)%nat -> faults (k + i)%nat <> Some Invalid) /\
    forall name,
      name ∈ fst (unlink_each faults k targets fs) <->
      (name ∈ fs) /\
      ~ exists i, targets !! i = Some name /\ faults (k + i)%nat = None /\
                  forall j, (j < i)%nat -> faults (k + j)%nat <> Some Invalid.
Proof.
  induction targets as [|t rest IH]; intros k fs.
  - simpl. split; [split; [intros _ i Hi; lia|done]|].
    intros name. split; [|by intros [H _]].
    intros H. split; [done|]. by intros (i & Hi & _).
  - assert (Hshift : forall i, (k + S i)%nat = (S k + i)%nat) by (intros; lia).
    assert (Hrec : forall fs1,
               (forall name, name ∈ fs1 <-> name ∈ fs /\ (faults k = None -> name <> t)) ->
               faults k <> Some Invalid ->
               (snd (unlink_each faults (S k) rest fs1) = Constructed <->
                forall i, (i < length (t :: rest))%nat ->
                          faults (k + i)%nat <> Some Invalid) /\
               forall name,
                 name ∈ fst (unlink_each faults (S k) rest fs1) <->
                 (name ∈ fs) /\
                 ~ exists i, (t :: rest) !! i = Some name /\
                             faults (k + i)%nat = None /\
                             forall j, (j < i)%nat ->
                                       faults (k + j)%nat <> Some Invalid).
    { intros fs1 Hfs1 Hk. destruct (IH (S k) fs1) as [IHe IHn]. split.
      - rewrite IHe. split.
        + intros H [|i] Hi; [by rewrite Nat.add_0_r|].
          rewrite Hshift. apply H. simpl in Hi. lia.
        + intros H i Hi. rewrite <- Hshift. apply H. simpl. lia.
      - intros name. rewrite IHn, Hfs1. split.
        + intros [[Hin Hne] Hno]. split; [done|].
          intros ([|i] & Hi & Hnone & Hbefore).
          * simpl in Hi. injection Hi as ->.
            rewrite Nat.add_0_r in Hnone. by apply Hne.
          * apply Hno. exists i. simpl in Hi. rewrite <- Hshift.
            split; [done|]. split; [done|].
            intros j Hj. rewrite <- Hshift. apply Hbefore. lia.
        + intros [Hin Hno]. split.
          * split; [done|]. intros Hnone ->. apply Hno. exists 0%nat.
            rewrite Nat.add_0_r. split; [done|]. split; [done|].
            intros j Hj. lia.
          * intros (i & Hi & Hnone & Hbefore). apply Hno. exists (S i).
            rewrite Hshift. split; [done|]. split; [done|].
            intros [|j] Hj; [by rewrite Nat.add_0_r|].
            rewrite Hshift. apply Hbefore. lia. }
    cbn [unlink_each]. unfold unlink.
    destruct (faults k) as [[|]|] eqn:Hk; cbn [fault_exn].
    + apply Hrec; [|done]. intros name. split; [by intros H|by intros [H _]].
    + cbn [fst snd]. split.
      * split; [done|]. intros H. exfalso. apply (H 0%nat); [simpl; lia|].
        by rewrite Nat.add_0_r.
      * intros name. split; [|by intros [H _]]. intros H. split; [done|].
        intros ([|i] & Hi & Hnone & Hbefore).
        -- rewrite Nat.add_0_r in Hnone. congruence.
        -- apply (Hbefore 0%nat); [lia|]. by rewrite Nat.add_0_r.
    + destruct (decide (t ∈ fs)) as [Hin|Hout].
      * apply Hrec; [|done]. intros name. set_solver.
      * apply Hrec; [|done]. intros name. set_solver.
Qed.

(** X23. Constructing a [PyAudioRecorder] unlinks the files of earlier
    recordings, [recFiles] and then [rec.wav] and [rec.mp3], one call of
    [os.unlink] after the other.  It fails exactly when one of these calls
    raises an exception that is not an [OSError]; an [OSError] is passed
    over.  Whether it fails or not, a file exists afterwards exactly when
    it existed before and no call removed it: no call on its name that met
    no fault and came before any call that raised another exception.  So a
    file whose removal is refused (in use, protected, a directory) is still
    there afterwards. *)
Theorem recorder_init_removes_only_old_recordings :
  forall (faults : nat -> option Fault) (recFiles : list string) (fs : Files),
    let targets := recFiles ++ [processingSrc; processingDst] in
    let result := PyAudioRecorder_init faults recFiles fs in
    (snd result = Constructed <->
     forall i, (i < length targets)%nat -> faults i <> Some Invalid) /\
    forall name,
      name ∈ fst result <->
      (name ∈ fs) /\
      ~ exists i, targets !! i = Some name /\ faults i = None /\
                  forall j, (j < i)%nat -> faults j <> Some Invalid.
Proof.
  intros faults recFiles fs targets result.
  exact (unlink_each_removes faults targets 0%nat fs).
Qed.

(** X24. [postprocess(encode=False)] on a chain that holds only [lame]
    commands, such as the chain of this module, starts no process, does not
    call [cleanup], raises nothing and leaves every file, the recording
    [rec.wav] included, where it is. *)
Theorem postprocess_without_encoding_does_nothing :
  forall (h : Host) (launch : Launcher) (faults : nat -> option Fault)
         (chain : list (list string)) (fs : Files),
    Forall (fun c => head c = Some "lame") chain ->
    postprocess h launch faults false chain fs = Some (Returned, [], fs).
Proof.
  intros h launch faults chain fs Hlame. unfold postprocess.
  generalize 0%nat.
  induction Hlame as [|c chain Hc Hlame IH]; intros k; [done|].
  cbn [postprocess_loop]. destruct c as [|name c]; [discriminate Hc|].
  injection Hc as ->. simpl. apply IH.
Qed.

Lemma postprocess_without_encoding_witness :
  let h := mkHost ∅ false false "" "/usr/bin" (fun _ => true)
                  (fun d f => d +:+ "/" +:+ f) in
  postprocess h (fun _ _ => (None, id)) (fun _ => Some Refused) false
              processingChain {[ processingSrc ]}
  = Some (Returned, [], {[ processingSrc ]}).
Proof.
  intros h.
  apply (postprocess_without_encoding_does_nothing h _ _ processingChain).
  repeat constructor.
Defined.

Lemma packaged_cons (h : Host) (name : string) (c : list string) :
  exists cmd' env,
    _packagedCmd h (name :: c) = Some (cmd', env) /\
    packaged h (name :: c) = cmd'.
Proof.
  unfold packaged, _packagedCmd. destruct (path_exists h _); eauto.
Qed.

Lemma cleanup_done (fault : option Fault) fs fs2 :
  cleanup fault fs = inl fs2 -> (processingSrc ∉ fs2) /\ (fs2 ⊆ fs).
Proof.
  unfold cleanup, unlink. destruct (decide (processingSrc ∈ fs)).
  - destruct fault; [done|]. intros [= <-]. set_solver.
  - by intros [= <-].
Qed.

Lemma cleanup_raised (fault : option Fault) fs (e : UnlinkExn) :
  cleanup fault fs = inr e ->
  (processingSrc ∈ fs) /\ exists f, fault = Some f /\ e = fault_exn f.
Proof.
  unfold cleanup, unlink. destruct (decide (processingSrc ∈ fs)); [|done].
  destruct fault as [f|]; [|done]. intros [= <-]. eauto.
Qed.

Lemma retryWait_first (attempts : list WaitAttempt) (r : option Z) :
  retryWait attempts = Some r ->
  exists o, first_outcome attempts o /\
            r = match o with
                | WaitReturned returncode => Some returncode
                | _ => None
                end.
Proof.
  induction attempts as [|[|returncode|] attempts IH]; simpl.
  - done.
  - intros H. destruct (IH H) as (o & [Ho (retries & rest & ->)] & Hr).
    exists o. split; [|done]. split; [done|]. by exists (S retries), rest.
  - intros [= <-]. exists (WaitReturned returncode). split; [|done].
    split; [done|]. by exists 0%nat, attempts.
  - intros [= <-]. exists WaitRaised. split; [|done].
    split; [done|]. by exists 0%nat, attempts.
Qed.

Lemma retryWait_comes_back (attempts : list WaitAttempt) :
  Exists (fun a => a <> WaitOSError) attempts -> is_Some (retryWait attempts).
Proof.
  induction 1 as [a attempts Ha|a attempts _ IH]; destruct a; simpl; eauto.
  done.
Qed.

Lemma ret_of_false (started : option (list WaitAttempt)) :
  ret_of started = Some false -> ran_well started.
Proof.
  unfold ret_of. destruct started as [attempts|]; [|done].
  destruct (retryWait attempts) as [[returncode|]|] eqn:Hw; [|done|done].
  intros [= Hz]. apply negb_false_iff, Z.eqb_eq in Hz. subst returncode.
  destruct (retryWait_first _ _ Hw) as (o & Ho & Hr).
  exists attempts. split; [done|]. by destruct o; simplify_eq.
Qed.

Lemma ret_of_true (started : option (list WaitAttempt)) :
  ret_of started = Some true -> failed started.
Proof.
  unfold ret_of. destruct started as [attempts|]; [|by left].
  destruct (retryWait attempts) as [[returncode|]|] eqn:Hw; [| |done].
  - intros [= Hz]. apply negb_true_iff, Z.eqb_neq in Hz.
    destruct (retryWait_first _ _ Hw) as (o & Ho & Hr).
    right. exists attempts, o. split; [done|]. split; [done|].
    destruct o; simplify_eq. congruence.
  - intros _. destruct (retryWait_first _ _ Hw) as (o & Ho & Hr).
    right. exists attempts, o. split; [done|]. split; [done|].
    by destruct o.
Qed.

Lemma postprocess_loop_encoding (h : Host) (launch : Launcher)
    (faults : nat -> option Fault) chain :
  Forall (fun c => c <> []) chain ->
  forall (k : nat) cmd launched fs res launched' fs',
    postprocess_loop h launch faults true k chain cmd launched fs
    = Some (res, launched', fs') ->
    exists n : nat,
      (n <= length chain)%nat /\
      launched' = launched ++ take n (map (packaged h) chain) /\
      (n = 0%nat -> fs' = fs) /\
      finished_as h launch faults k chain res n fs'.
Proof.
  intros Hne. induction Hne as [|c chain Hc Hne IH];
    intros k cmd launched fs res launched' fs'.
  - intros [= <- <- <-]. exists 0%nat. simpl. rewrite app_nil_r.
    repeat split; try done; lia.
  - destruct c as [|name c]; [done|].
    destruct (packaged_cons h name c) as (cmd' & env & Hpk & Hpk').
    cbn [postprocess_loop skipped]. rewrite Hpk.
    destruct (launch k cmd') as [started written] eqn:Hlaunch.
    assert (Hstarted : (launch (k + 0)%nat (packaged h (name :: c))).1
                       = started)
      by (by rewrite Nat.add_0_r, Hpk', Hlaunch).
    destruct (ret_of started) as [ret|] eqn:Hret; [|done].
    destruct (cleanup (faults k) (written fs)) as [fs2|e] eqn:Hclean.
    + destruct (cleanup_done _ _ _ Hclean) as [Hgone _].
      destruct ret.
      * intros [= <- <- <-]. exists 1%nat. cbn [map take length].
        rewrite Hpk', take_0. split; [lia|]. split; [done|].
        split; [lia|]. exists 0%nat, (name :: c).
        split; [done|]. split; [done|]. split; [intros j c' Hj; lia|].
        right. rewrite Hstarted, Hpk'. split; [done|].
        split; [by apply ret_of_true|done].
      * intros Hloop.
        destruct (IH _ _ _ _ _ _ _ Hloop) as (n & Hn & Hl & Hfs0 & Hres).
        exists (S n). cbn [map take length]. rewrite Hpk'.
        split; [lia|]. split; [by rewrite Hl, <- app_assoc|].
        split; [lia|].
        assert (Hshift : forall i, (k + S i)%nat = (S k + i)%nat)
          by (intros; lia).
        destruct res as [|e]; cbn [finished_as] in Hres |- *.
        -- destruct Hres as (-> & Hwell & Hsrc). split; [done|]. split.
           ++ intros [|i] c0 Hi.
              ** injection Hi as <-. rewrite Hstarted.
                 by apply ret_of_false.
              ** rewrite Hshift. by apply Hwell.
           ++ intros _. destruct chain as [|c1 chain].
              ** by rewrite Hfs0.
              ** apply Hsrc. simpl. lia.
        -- destruct Hres as (i & c0 & -> & Hi & Hwell & Hend).
           exists (S i), c0. split; [done|]. split; [done|]. split.
           ++ intros [|j] c' Hj Hc'.
              ** injection Hc' as <-. rewrite Hstarted.
                 by apply ret_of_false.
              ** rewrite Hshift. apply Hwell; [lia|done].
           ++ by rewrite Hshift.
    + destruct (cleanup_raised _ _ _ Hclean) as (Hstill & f & Hf & ->).
      intros [= <- <- <-]. exists 1%nat. cbn [map take length].
      rewrite Hpk', take_0. split; [lia|]. split; [done|].
      split; [lia|]. exists 0%nat, (name :: c).
      split; [done|]. split; [done|]. split; [intros j c' Hj; lia|].
      left. exists f. by rewrite Nat.add_0_r.
Qed.

Lemma postprocess_loop_comes_back (h : Host) (launch : Launcher)
    (faults : nat -> option Fault) chain :
  Forall (fun c => c <> []) chain ->
  forall (k : nat) cmd launched fs,
    (forall i c attempts,
        chain !! i = Some c ->
        (launch (k + i)%nat (packaged h c)).1 = Some attempts ->
        Exists (fun a => a <> WaitOSError) attempts) ->
    is_Some (postprocess_loop h launch faults true k chain cmd launched fs).
Proof.
  intros Hne. induction Hne as [|c chain Hc Hne IH];
    intros k cmd launched fs Hwaits; [by eexists|].
  destruct c as [|name c]; [done|].
  destruct (packaged_cons h name c) as (cmd' & env & Hpk & Hpk').
  cbn [postprocess_loop skipped]. rewrite Hpk.
  destruct (launch k cmd') as [started written] eqn:Hlaunch.
  assert (Hret : is_Some (ret_of started)).
  { unfold ret_of. destruct started as [attempts|]; [|by eexists].
    destruct (retryWait_comes_back attempts) as [r ->].
    - apply (Hwaits 0%nat (name :: c)); [done|].
      by rewrite Nat.add_0_r, Hpk', Hlaunch.
    - destruct r; by eexists. }
  destruct Hret as [ret ->].
  destruct (cleanup (faults k) (written fs)) as [fs2|e]; [|by eexists].
  destruct ret; [by eexists|]. apply IH.
  intros i c0 attempts Hi. replace (S k + i)%nat with (k + S i)%nat by lia.
  by apply (Hwaits (S i)).
Qed.

(** X25. [postprocess(encode=True)] on a chain of non-empty commands.  It
    comes back when every [wait] of a started command does, that is when
    some attempt does not raise [OSError].  When it comes back, the
    commands were handed to [Popen] in chain order, each as [_packagedCmd]
    returns it, and every one before the last of them ran well: it was
    started and the first [wait] that did not raise [OSError] returned 0.
    If [postprocess] returns, the whole chain has run well and, unless the
    chain is empty, [rec.wav] does not exist at the end.  If it raises, it
    does so for the last command handed to [Popen], and no later command is
    started: either [os.unlink] raised in [cleanup], and that exception is
    the one raised, with [rec.wav] still there; or that command failed (it
    could not be started, or the first [wait] that did not raise [OSError]
    raised something else or returned a non-zero code), it is named in the
    exception raised, and [rec.wav] does not exist at the end. *)
Theorem postprocess_stops_at_first_failure_and_cleans_up :
  forall (h : Host) (launch : Launcher) (faults : nat -> option Fault)
         (chain : list (list string)) (fs : Files),
    Forall (fun c => c <> []) chain ->
    ((forall i c attempts,
         chain !! i = Some c ->
         (launch i (packaged h c)).1 = Some attempts ->
         Exists (fun a => a <> WaitOSError) attempts) ->
     is_Some (postprocess h launch faults true chain fs)) /\
    forall (res : Result) (launched : list (list string)) (fs' : Files),
      postprocess h launch faults true chain fs = Some (res, launched, fs') ->
      exists n : nat,
        (n <= length chain)%nat /\
        launched = take n (map (packaged h) chain) /\
        match res with
        | Returned =>
            n = length chain /\
            (forall i c, chain !! i = Some c ->
                         ran_well (launch i (packaged h c)).1) /\
            ((0 < n)%nat -> processingSrc ∉ fs')
        | Raised e =>
            exists i c,
              n = S i /\ chain !! i = Some c /\
              (forall j c', (j < i)%nat -> chain !! j = Some c' ->
                            ran_well (launch j (packaged h c')).1) /\
              ((exists f, e = CleanupRaised (fault_exn f) /\
                          faults i = Some f /\ processingSrc ∈ fs')
               \/ (e = ErrorRunning (String.concat " " (packaged h c)) /\
                   failed (launch i (packaged h c)).1 /\
                   processingSrc ∉ fs'))
        end.
Proof.
  intros h launch faults chain fs Hne. split.
  - intros Hwaits. by apply postprocess_loop_comes_back.
  - intros res launched fs' Hpost.
    destruct (postprocess_loop_encoding h launch faults chain Hne
                _ _ _ _ _ _ _ Hpost) as (n & Hn & Hl & _ & Hres).
    exists n. split; [done|]. split; [done|]. exact Hres.
Qed.

Lemma postprocess_failure_witness :
  let h := mkHost ∅ false false "" "/usr/bin" (fun _ => false)
                  (fun d f => d +:+ "/" +:+ f) in
  let lame := ["lame"; "rec.wav"; "rec.mp3"; "--noreplaygain"; "--quiet"] in
  let launch : Launcher :=
    fun _ _ => (Some [WaitOSError; WaitReturned 1], id) in
  Forall (fun c => c <> []) processingChain /\
  postprocess h launch (fun _ => None) true processingChain
              {[ processingSrc ]}
  = Some (Raised (ErrorRunning
                    "lame rec.wav rec.mp3 --noreplaygain --quiet"),
          [lame], ∅) /\
  postprocess h launch (fun _ => Some Refused) true processingChain
              {[ processingSrc ]}
  = Some (Raised (CleanupRaised UnlinkOSError), [lame],
          {[ processingSrc ]}) /\
  is_Some (postprocess h launch (fun _ => None) true processingChain
                       {[ processingSrc ]}) /\
  exists i c, processingChain !! i = Some c /\
              failed (launch i (packaged h c)).1.
Proof.
  intros h lame launch.
  assert (Hne : Forall (fun c : list string => c <> []) processingChain)
    by (repeat constructor; done).
  assert (Hpost :
    postprocess h launch (fun _ => None) true processingChain
                {[ processingSrc ]}
    = Some (Raised (ErrorRunning
                      "lame rec.wav rec.mp3 --noreplaygain --quiet"),
            [lame], ∅)).
  { unfold postprocess, processingChain. cbn [postprocess_loop skipped].
    unfold _packagedCmd, cleanup, unlink. simpl.
    rewrite decide_True by set_solver. simpl. f_equal. }
  split; [exact Hne|]. split; [exact Hpost|]. split.
  { unfold postprocess, processingChain. cbn [postprocess_loop skipped].
    unfold _packagedCmd, cleanup, unlink. simpl.
    by rewrite decide_True by set_solver. }
  destruct (postprocess_stops_at_first_failure_and_cleans_up
              h launch (fun _ => None) processingChain {[ processingSrc ]}
              Hne) as [Hback Hdone].
  split.
  { apply Hback. intros i c attempts _ [= <-].
    apply Exists_cons_tl, Exists_cons_hd. done. }
  destruct (Hdone _ _ _ Hpost) as (n & _ & _ & i & c & _ & Hc & _ & Hend).
  exists i, c. split; [exact Hc|].
  destruct Hend as [(f & He & _)|(_ & Hfailed & _)]; [discriminate He|].
  exact Hfailed.
Defined.

End RecorderFacts.

(** ** A stop flag left raised *)

Section RoundFacts.
Import SimpleProcessPlayer Rounds.

(** X26. A stop flag left raised on a process-backed player reproduces
    itself: in every following round of a [play] whose process outlives the
    first wait and a [stop] made after that play is over, on any clock that
    advances, the play is terminated at its first wait that times out and
    clears the flag, its [on_done] is never applied, and the [stop],
    finding no supervising loop, blocks its caller until 10 seconds or more
    have elapsed and leaves the flag raised again.  After any number of
    such rounds the flag is raised, every file was launched and
    terminated, and the primary context has seen no callback. *)
Theorem stale_stop_flag_reproduces_itself :
  forall (S : Type) (args : list string) (on_done : S -> S)
         (rs : list (string * list Step * Clock)) (effs : list Effect)
         (main : S),
    Forall (fun r => advances r.2) rs ->
    exists sleeps : list nat,
      rounds args on_done rs (mk true None effs, main)
      = Some (mk true None (effs ++ launched_and_terminated args rs),
              main, sleeps) /\
      Forall2 blocked_for_ceiling rs sleeps.
Proof.
  intros S args on_done rs effs main Hadv. revert effs.
  induction Hadv as [|[[filename later] clock] rs Hclock Hadv IH];
    intros effs.
  - exists []. split; [|constructor].
    simpl. unfold launched_and_terminated. simpl. by rewrite app_nil_r.
  - destruct (stop_unattended_leaves_flag clock
                (mk false None
                    (effs ++ [Launched (args ++ [filename]); Terminated]))
                Hclock) as (n & Hstop & Hblocked).
    destruct (IH (effs ++ [Launched (args ++ [filename]); Terminated]))
      as (sleeps & Hrounds & Hall).
    exists (n :: sleeps). split; [|by constructor].
    cbn [rounds round].
    rewrite (play_with_stale_flag args filename on_done later
               (mk true None effs) main eq_refl).
    cbn [effects]. rewrite Hstop. unfold set_terminate_flag.
    cbn [_process effects]. rewrite Hrounds.
    unfold launched_and_terminated. cbn [map concat fst snd].
    by rewrite <- app_assoc.
Qed.

Lemma stale_stop_flag_witness :
  exists sleeps : list nat,
    rounds ["mplayer"] Nat.succ
           [("a.mp3", [], exact_clock 0);
            ("b.mp3", [Wait (Exited 0)], exact_clock 20000)]
           (mk true None [], 0%nat)
    = Some (mk true None
               [Launched ["mplayer"; "a.mp3"]; Terminated;
                Launched ["mplayer"; "b.mp3"]; Terminated],
            0%nat, sleeps).
Proof.
  destruct (stale_stop_flag_reproduces_itself nat ["mplayer"] Nat.succ
              [("a.mp3", [], exact_clock 0);
               ("b.mp3", [Wait (Exited 0)], exact_clock 20000)]
              [] 0%nat) as (sleeps & Hrounds & _).
  - repeat constructor; apply exact_clock_advances.
  - exists sleeps. exact Hrounds.
Defined.

End RoundFacts.
